(** * Driver analyzer: parsers, stopped-driver filter and report renderer

    A shallow embedding of [src/driver_analyzer.py] and the properties of its
    output-parsing layer.

    Python [str] values are sequences of Unicode code points, modelled as
    [list N].  The [dict] built for each driver is a [gmap] from strings to
    strings.  Operations that can raise in Python (indexing, [list.index],
    tuple unpacking) return a [result]; console output and the report file
    live in an explicit [World] that is passed along.  What the operating
    system answers to a run (the outcome of each command, of opening and
    writing the report file) is an input of the run: [run_outcome] and
    [file_outcome]. *)

From Stdlib Require Import String Ascii NArith ZArith List Lia.
From stdpp Require Import gmap list.
Import ListNotations.

(** ** Python strings *)

Module PyStr.

Abbreviation str := (list N).

(** An ASCII literal as a sequence of code points. *)
Definition lit (s : string) : str :=
  map N_of_ascii (list_ascii_of_string s).

Definition NL : N := 10%N.      (* line feed *)
Definition DQUOTE : N := 34%N.  (* double quote *)
Definition COMMA : N := 44%N.   (* comma *)
Definition COLON : N := 58%N.   (* colon *)

Definition nl : str := [NL].

(** [str.isspace] on one code point: the whitespace set of CPython's
    Unicode database, which [str.strip()] without argument removes. *)
Definition isspace (c : N) : bool :=
  ((9 <=? c) && (c <=? 13) || (28 <=? c) && (c <=? 32)
   || (c =? 133) || (c =? 160) || (c =? 5760)
   || (8192 <=? c) && (c <=? 8202)
   || (c =? 8232) || (c =? 8233) || (c =? 8239) || (c =? 8287)
   || (c =? 12288))%N.

Fixpoint lstrip (s : str) : str :=
  match s with
  | [] => []
  | c :: s' => if isspace c then lstrip s' else s
  end.

Definition rstrip (s : str) : str := reverse (lstrip (reverse s)).

(** [s.strip()] *)
Definition strip (s : str) : str := rstrip (lstrip s).

(** [str.lower] one code point at a time.  The table is exact on ASCII and
    on Latin-1, which holds every cased letter that the [cp850] decoding of
    [run_command] can produce; code points beyond Latin-1 are left as they
    are.  The program only compares lower-cased text with the ASCII tokens
    [false] and [stopped]. *)
Definition lower_char (c : N) : N :=
  (if (65 <=? c) && (c <=? 90) then c + 32
   else if (192 <=? c) && (c <=? 222) && negb (c =? 215) then c + 32
   else c)%N.

Definition lower (s : str) : str := map lower_char s.

(** [s.startswith(sep)] *)
Fixpoint starts_with (sep s : str) : bool :=
  match sep, s with
  | [], _ => true
  | _ :: _, [] => false
  | a :: sep', b :: s' => (a =? b)%N && starts_with sep' s'
  end.

(** [sub in s] for strings: substring test. *)
Fixpoint contains (sub s : str) : bool :=
  starts_with sub s
  || match s with
     | [] => false
     | _ :: s' => contains sub s'
     end.

Definition cons_head (c : N) (pieces : list str) : list str :=
  match pieces with
  | [] => [[c]]
  | p :: ps => (c :: p) :: ps
  end.

Definition may_split (maxsplit : option nat) : bool :=
  match maxsplit with
  | Some O => false
  | _ => true
  end.

Definition spend (maxsplit : option nat) : option nat := Nat.pred <$> maxsplit.

(** [s.split(sep, maxsplit)] for a non-empty [sep] (the only use in the
    program): scan left to right, cut at each leftmost occurrence of [sep]
    that does not overlap the previous cut, at most [maxsplit] times
    ([None] stands for Python's -1, no limit).  [skip] counts the
    characters of a matched separator still to be passed over. *)
Fixpoint split_from (sep : str) (maxsplit : option nat) (skip : nat) (s : str)
  : list str :=
  match s with
  | [] => [[]]
  | c :: s' =>
      match skip with
      | S k => split_from sep maxsplit k s'
      | O =>
          if may_split maxsplit && starts_with sep s
          then [] :: split_from sep (spend maxsplit) (length sep - 1) s'
          else cons_head c (split_from sep maxsplit 0 s')
      end
  end.

Definition split (sep s : str) : list str := split_from sep None 0 s.

Definition split_max (sep : str) (maxsplit : nat) (s : str) : list str :=
  split_from sep (Some maxsplit) 0 s.

(** [s.replace(old, new)] for a non-empty [old]. *)
Fixpoint replace_from (old new : str) (skip : nat) (s : str) : str :=
  match s with
  | [] => []
  | c :: s' =>
      match skip with
      | S k => replace_from old new k s'
      | O =>
          if starts_with old s
          then new ++ replace_from old new (length old - 1) s'
          else c :: replace_from old new 0 s'
      end
  end.

Definition replace (old new s : str) : str := replace_from old new 0 s.

Definition digit_char (d : N) : N := (48 + d)%N.

Fixpoint digits (d : Decimal.uint) : str :=
  match d with
  | Decimal.Nil => []
  | Decimal.D0 d => digit_char 0 :: digits d
  | Decimal.D1 d => digit_char 1 :: digits d
  | Decimal.D2 d => digit_char 2 :: digits d
  | Decimal.D3 d => digit_char 3 :: digits d
  | Decimal.D4 d => digit_char 4 :: digits d
  | Decimal.D5 d => digit_char 5 :: digits d
  | Decimal.D6 d => digit_char 6 :: digits d
  | Decimal.D7 d => digit_char 7 :: digits d
  | Decimal.D8 d => digit_char 8 :: digits d
  | Decimal.D9 d => digit_char 9 :: digits d
  end.

(** [str(n)] / [f"{n}"] for a non-negative integer. *)
Definition str_of_nat (n : nat) : str := digits (Nat.to_uint n).

End PyStr.

Import PyStr.

(** ** Exceptions and the world *)

(** The exceptions that reach the program: the two the parsing code could
    raise, and [OSError] for what the operating system refuses (a file that
    cannot be opened or written, a process that cannot be started). *)
Inductive exn := ValueError | IndexError | OSError.

Inductive result (A : Type) :=
| Ok (a : A)
| Raise (e : exn).
Arguments Ok {A} a.
Arguments Raise {A} e.

#[global] Instance result_ret : MRet result := @Ok.
#[global] Instance result_bind : MBind result :=
  fun A B f m => match m with Ok a => f a | Raise e => Raise e end.

(** [for x in l: s = body(s, x)], stopping at the first exception. *)
Fixpoint for_each {A S : Type} (body : S -> A -> result S) (s : S) (l : list A)
  : result S :=
  match l with
  | [] => Ok s
  | x :: l' => s' ← body s x; for_each body s' l'
  end.

(** [l[i]] with Python's negative indices. *)
Definition getitem {A : Type} (l : list A) (i : Z) : result A :=
  let n := Z.of_nat (length l) in
  let j := if (i <? 0)%Z then (i + n)%Z else i in
  if ((0 <=? j) && (j <? n))%Z
  then match l !! Z.to_nat j with
       | Some x => Ok x
       | None => Raise IndexError
       end
  else Raise IndexError.

(** [l.index(x)] *)
Fixpoint index (x : str) (l : list str) : result Z :=
  match l with
  | [] => Raise ValueError
  | y :: l' => if decide (y = x) then Ok 0%Z else i ← index x l'; Ok (1 + i)%Z
  end.

(** The part of the process environment the program reads and writes. *)
Record World := mkWorld {
  stdout : list str;            (* one entry per [print] call *)
  files : gmap str str;         (* path to contents *)
  now : str;                    (* [datetime.now().strftime('%Y-%m-%d %H:%M:%S')] *)
  abspath : str -> str          (* [os.path.abspath] *)
}.

Definition print (text : str) (w : World) : World :=
  mkWorld (stdout w ++ [text]) (files w) (now w) (abspath w).

(** [open(path, "w")]: the file exists and is empty afterwards. *)
Definition open_w (path : str) (w : World) : World :=
  mkWorld (stdout w) (<[path := []]> (files w)) (now w) (abspath w).

(** [f.write(text)] on the file opened at [path]. *)
Definition write (path text : str) (w : World) : World :=
  mkWorld (stdout w) (alter (fun c => c ++ text) path (files w)) (now w) (abspath w).

(** ** The program *)

Abbreviation DriverRecord := (gmap str str).

(** [d.get(k, dflt)] *)
Definition dict_get (d : DriverRecord) (k dflt : str) : str := default dflt (d !! k).

(** Python truth value of an optional string: [None] and [''] are false. *)
Definition truthy (output : option str) : bool :=
  match output with
  | None | Some [] => false
  | Some (_ :: _) => true
  end.

Definition header_map : gmap str str :=
  list_to_map
    [ (lit "Nombre de m" ++ [243%N] ++ lit "dulo", lit "ModuleName");
      (lit "Module Name", lit "ModuleName");
      (lit "Nombre a mostrar", lit "DisplayName");
      (lit "Display Name", lit "DisplayName");
      (lit "Descripci" ++ [243%N] ++ lit "n del controlador", lit "Description");
      (lit "Driver Description", lit "Description");
      (lit "Tipo de controlador", lit "Driver Type");
      (lit "Tipo", lit "Driver Type");
      (lit "Estado", lit "State");
      (lit "PnP Device ID", lit "PnPDeviceID") ].

(** Body of the inner loop of [parse_driver_v_output] (lines 91 to 96). *)
Definition parse_line (driver : DriverRecord) (line : str) : result DriverRecord :=
  if contains [COLON] line then
    match split_max [COLON] 1 line with
    | [key; value] =>
        let key := strip key in
        let normalized_key := default key (header_map !! key) in
        Ok (<[normalized_key := strip value]> driver)
    | _ => Raise ValueError
    end
  else Ok driver.

(** Body of the outer loop of [parse_driver_v_output] (lines 88 to 98). *)
Definition parse_record (drivers : list DriverRecord) (record : str)
  : result (list DriverRecord) :=
  let lines := split nl (strip record) in
  driver ← for_each parse_line ∅ lines;
  if bool_decide (driver ≠ ∅) then Ok (drivers ++ [driver]) else Ok drivers.

Definition parse_driver_v_output (output : option str) : result (list DriverRecord) :=
  match output with
  | Some (c :: s) =>
      let records := split (nl ++ nl) (strip (c :: s)) in
      for_each parse_record [] records
  | _ => Ok []
  end.

Definition IsSigned : str := lit "IsSigned".
Definition Esta_firmado : str := lit "Est" ++ [225%N] ++ lit " firmado".

Definition signature_warning : str :=
  lit "Warning: Could not determine the signature status column in 'driverquery /si' output.".

(** Lines 116 and 137: every comma-separated field, stripped of surrounding
    whitespace and then with every double quote removed. *)
Definition clean_fields (line : str) : list str :=
  map (fun p => replace [DQUOTE] [] (strip p)) (split [COMMA] line).

Definition device_name_index : Z := 0.

(** Body of the row loop of [parse_signed_driver_output] (lines 136 to 142). *)
Definition parse_row (is_signed_index : Z) (unsigned_drivers : list str) (line : str)
  : result (list str) :=
  if truthy (Some (strip line)) then
    let parts := clean_fields line in
    if (Z.of_nat (length parts) >? is_signed_index)%Z then
      field ← getitem parts is_signed_index;
      let signature_status := lower field in
      if bool_decide (signature_status = lit "false") then
        device_name ← getitem parts device_name_index;
        Ok (unsigned_drivers ++ [device_name])
      else Ok unsigned_drivers
    else Ok unsigned_drivers
  else Ok unsigned_drivers.

(** Lines 119 to 123: the column index by header label, or -1. *)
Definition find_is_signed_index (header : list str) : result Z :=
  if bool_decide (IsSigned ∈ header) then index IsSigned header
  else if bool_decide (Esta_firmado ∈ header) then index Esta_firmado header
  else Ok (-1)%Z.

Definition parse_signed_driver_output (output : option str) (w : World)
  : result (list str) * World :=
  match output with
  | Some (c :: s) =>
      let lines := split nl (strip (c :: s)) in
      if length lines <? 2 then (Ok [], w)
      else
        match (line0 ← getitem lines 0%Z; let header := clean_fields line0 in
               i ← find_is_signed_index header; Ok (header, i)) with
        | Raise e => (Raise e, w)
        | Ok (header, is_signed_index) =>
            if (is_signed_index =? -1)%Z then
              let w := print signature_warning w in
              if 1 <? length header
              then (for_each (parse_row 1%Z) [] (drop 1 lines), w)
              else (Ok [], w)
            else (for_each (parse_row is_signed_index) [] (drop 1 lines), w)
        end
  | _ => (Ok [], w)
  end.

(** Line 220: [[d for d in all_drivers if d.get('State', '').lower() == 'stopped']] *)
Definition is_stopped (d : DriverRecord) : Prop :=
  lower (dict_get d (lit "State") []) = lit "stopped".

Definition stopped_drivers (all_drivers : list DriverRecord) : list DriverRecord :=
  filter is_stopped all_drivers.

Definition report_path : str := lit "report.txt".

Definition N_A : str := lit "N/A".

(** Lines 163 to 170: the entry of one stopped driver. *)
Definition write_stopped (f : str) (w : World) (driver : DriverRecord) : World :=
  let name := dict_get driver (lit "ModuleName") N_A in
  let display_name := dict_get driver (lit "DisplayName") N_A in
  let pnp_id := dict_get driver (lit "PnPDeviceID") N_A in
  let w := write f (lit "  - Name: " ++ name ++ nl) w in
  let w := write f (lit "    Display Name: " ++ display_name ++ nl) w in
  write f (lit "    PnP Device ID: " ++ pnp_id ++ nl ++ nl) w.

Definition write_unsigned (f : str) (w : World) (driver_name : str) : World :=
  write f (lit "  - " ++ driver_name ++ nl) w.

Definition generate_report (stopped_drivers : list DriverRecord)
    (unsigned_drivers : list str) (w : World) : World :=
  let w := print (lit "Generating report at: " ++ abspath w report_path) w in
  let f := report_path in
  let w := open_w f w in
  let w := write f (lit "Driver Analysis Report" ++ nl) w in
  let w := write f (lit "======================" ++ nl) w in
  let w := write f (lit "Generated on: " ++ now w ++ nl ++ nl) w in
  let w := write f (lit "--- Summary ---" ++ nl) w in
  let w := write f (lit "Found " ++ str_of_nat (length stopped_drivers)
                      ++ lit " stopped drivers." ++ nl) w in
  let w := write f (lit "Found " ++ str_of_nat (length unsigned_drivers)
                      ++ lit " unsigned drivers." ++ nl) w in
  let w := write f (lit "Note: Not all stopped or unsigned drivers indicate a problem. This report is for informational purposes." ++ nl ++ nl) w in
  let w :=
    match stopped_drivers with
    | _ :: _ =>
        let w := write f (lit "--- Stopped Drivers ---" ++ nl) w in
        fold_left (write_stopped f) stopped_drivers w
    | [] =>
        let w := write f (lit "--- Stopped Drivers ---" ++ nl) w in
        write f (lit "No stopped drivers found." ++ nl ++ nl) w
    end in
  let w :=
    match unsigned_drivers with
    | _ :: _ =>
        let w := write f (lit "--- Unsigned Drivers ---" ++ nl) w in
        let w := fold_left (write_unsigned f) unsigned_drivers w in
        write f nl w
    | [] =>
        let w := write f (lit "--- Unsigned Drivers ---" ++ nl) w in
        write f (lit "No unsigned drivers found." ++ nl ++ nl) w
    end in
  let w := write f (lit "--- Recommendations ---" ++ nl) w in
  let w := write f (lit "1. Check Windows Update for the latest official drivers." ++ nl) w in
  let w := write f (lit "2. For specific hardware (e.g., graphics cards), visit the manufacturer's official website (NVIDIA, AMD, Intel)." ++ nl) w in
  write f (lit "3. Do NOT download drivers from third-party websites." ++ nl) w.

(** ** Notions used to state the properties *)

(** A string made of whitespace only. *)
Definition blank (s : str) : Prop := Forall (fun c => isspace c = true) s.

(** A string with no whitespace at either end. *)
Definition trimmed (s : str) : Prop :=
  (forall c, head s = Some c -> isspace c = false)
  /\ (forall c, last s = Some c -> isspace c = false).

(** The blocks of a verbose listing: the pieces between blank lines. *)
Definition blocks (text : str) : list str := split (nl ++ nl) (strip text).

(** A block has a colon-bearing line. *)
Definition has_colon_line (block : str) : bool :=
  existsb (contains [COLON]) (split nl block).

(** The table lookup of line 95. *)
Definition normalize_key (key : str) : str := default key (header_map !! key).

(** The records one block contributes: none or one. *)
Definition block_records (record : str) : list DriverRecord :=
  match parse_record [] record with
  | Ok ds => ds
  | Raise _ => []
  end.

(** The column carrying a recognized signed-status label, English first. *)
Definition label_column (header : list str) : option nat :=
  match list_find (fun h => h = IsSigned) header with
  | Some (i, _) => Some i
  | None => fst <$> list_find (fun h => h = Esta_firmado) header
  end.

(** The signed-status column the parser settles on: the labelled one, else
    the second column when the header has one. *)
Definition signed_column (header : list str) : option nat :=
  match label_column header with
  | Some i => Some i
  | None => if 1 <? length header then Some 1 else None
  end.

(** The data rows of a signed-driver listing: every line after the first. *)
Definition data_rows (text : str) : list str := drop 1 (split nl (strip text)).

(** The device name of a row: its first cleaned field. *)
Definition device_name (line : str) : str := default [] (head (clean_fields line)).

(** A row is not blank and its cleaned field in column [col], lower-cased,
    is the token false. *)
Definition row_unsigned (col : nat) (line : str) : Prop :=
  strip line <> [] /\ lower <$> (clean_fields line !! col) = Some (lit "false").

#[global] Instance row_unsigned_dec col line : Decision (row_unsigned col line).
Proof. unfold row_unsigned. apply _. Defined.

Definition unsigned_names (col : nat) (rows : list str) : list str :=
  device_name <$> filter (row_unsigned col) rows.

(** The normalisation of a field as the specification words it: double
    quotes and whitespace are stripped from both ends, then the field is
    lower-cased. *)
Fixpoint lstrip_quotes_space (s : str) : str :=
  match s with
  | [] => []
  | c :: s' => if isspace c || (c =? DQUOTE)%N then lstrip_quotes_space s' else s
  end.

Definition spec_normalize (field : str) : str :=
  lower (reverse (lstrip_quotes_space (reverse (lstrip_quotes_space field)))).

(** The report as one document. *)
Definition stopped_entry (driver : DriverRecord) : str :=
  (lit "  - Name: " ++ dict_get driver (lit "ModuleName") N_A ++ nl)
  ++ (lit "    Display Name: " ++ dict_get driver (lit "DisplayName") N_A ++ nl)
  ++ (lit "    PnP Device ID: " ++ dict_get driver (lit "PnPDeviceID") N_A ++ nl ++ nl).

Definition unsigned_entry (driver_name : str) : str :=
  lit "  - " ++ driver_name ++ nl.

Definition report_text (stopped : list DriverRecord) (unsigned : list str)
    (timestamp : str) : str :=
  (lit "Driver Analysis Report" ++ nl)
  ++ (lit "======================" ++ nl)
  ++ (lit "Generated on: " ++ timestamp ++ nl ++ nl)
  ++ (lit "--- Summary ---" ++ nl)
  ++ (lit "Found " ++ str_of_nat (length stopped) ++ lit " stopped drivers." ++ nl)
  ++ (lit "Found " ++ str_of_nat (length unsigned) ++ lit " unsigned drivers." ++ nl)
  ++ (lit "Note: Not all stopped or unsigned drivers indicate a problem. This report is for informational purposes." ++ nl ++ nl)
  ++ (lit "--- Stopped Drivers ---" ++ nl)
  ++ match stopped with
     | [] => lit "No stopped drivers found." ++ nl ++ nl
     | _ :: _ => concat (stopped_entry <$> stopped)
     end
  ++ (lit "--- Unsigned Drivers ---" ++ nl)
  ++ match unsigned with
     | [] => lit "No unsigned drivers found." ++ nl ++ nl
     | _ :: _ => concat (unsigned_entry <$> unsigned) ++ nl
     end
  ++ (lit "--- Recommendations ---" ++ nl)
  ++ (lit "1. Check Windows Update for the latest official drivers." ++ nl)
  ++ (lit "2. For specific hardware (e.g., graphics cards), visit the manufacturer's official website (NVIDIA, AMD, Intel)." ++ nl)
  ++ (lit "3. Do NOT download drivers from third-party websites." ++ nl).

(** ** Sample inputs *)

Definition quoted (s : str) : str := [DQUOTE] ++ s ++ [DQUOTE].

Definition world0 : World :=
  mkWorld [] ∅ (lit "2024-01-01 00:00:00") (fun p => lit "/work/" ++ p).

(** A listing whose only data row carries the quoted field with blanks
    inside the quotes. *)
Definition table_padded_false : str :=
  lit "Name,IsSigned" ++ nl
  ++ quoted (lit "dev1") ++ [COMMA] ++ quoted (lit " false ").

(** A listing whose device name has blanks inside the quotes. *)
Definition table_padded_name : str :=
  lit "Name,IsSigned" ++ nl
  ++ quoted (lit " dev1 ") ++ [COMMA] ++ quoted (lit "False").

(** One row per spelling of the signed-status field. *)
Definition table_spellings : str :=
  lit "Name,IsSigned" ++ nl
  ++ quoted (lit "a") ++ [COMMA] ++ quoted (lit "False") ++ nl
  ++ quoted (lit "b") ++ [COMMA] ++ quoted (lit "FALSE") ++ nl
  ++ lit "c, false " ++ nl
  ++ quoted (lit "d") ++ [COMMA] ++ quoted [] ++ nl
  ++ quoted (lit "e") ++ [COMMA] ++ quoted (lit "true") ++ nl
  ++ quoted (lit "f") ++ [COMMA] ++ quoted (lit "unknown") ++ nl
  ++ quoted (lit "g") ++ [COMMA] ++ quoted (lit " false ").

(** The sample block and the sample table of the specification. *)
Definition listing_acpi : str :=
  lit "ModuleName: ACPI" ++ nl ++ lit "State: Stopped" ++ nl ++ nl.

Definition table_sample : str :=
  lit "Name,IsSigned" ++ nl
  ++ quoted (lit "dev1") ++ [COMMA] ++ quoted (lit "False") ++ nl
  ++ quoted (lit "dev2") ++ [COMMA] ++ quoted (lit "True").

(** A block that names the same field twice, once by its Spanish label. *)
Definition listing_duplicate_key : str :=
  lit "Module Name: ACPI" ++ nl ++ lit "State: Running" ++ nl
  ++ lit "Estado: Stopped" ++ nl.

(** A listing with no recognized signed-status label. *)
Definition table_unlabelled : str :=
  lit "Name,Signed" ++ nl
  ++ quoted (lit "dev1") ++ [COMMA] ++ quoted (lit "False") ++ nl
  ++ quoted (lit "dev2") ++ [COMMA] ++ quoted (lit "True").

(** ** The rest of the program: commands, privileges and the entry point *)

(** What the file system answers when [generate_report] opens and writes
    the report: every operation succeeds; [open] raises, and then no file
    is created or truncated; or a write (or the closing flush) raises after
    the file was truncated, and then the first [kept] characters of the
    report are what the file holds.  Console output is taken to succeed. *)
Inductive file_outcome :=
| FileWritten
| OpenRaises (e : exn)
| WriteRaises (e : exn) (kept : nat).

(** [generate_report] with the answer of the file system.  The function has
    no handler: what [open] or [write] raises leaves it. *)
Definition generate_report_io (io : file_outcome)
    (stopped_drivers : list DriverRecord) (unsigned_drivers : list str)
    (w : World) : result unit * World :=
  match io with
  | FileWritten => (Ok tt, generate_report stopped_drivers unsigned_drivers w)
  | OpenRaises e =>
      (Raise e, print (lit "Generating report at: " ++ abspath w report_path) w)
  | WriteRaises e kept =>
      let w := print (lit "Generating report at: " ++ abspath w report_path) w in
      let f := report_path in
      let w := open_w f w in
      (Raise e,
       write f (take kept (report_text stopped_drivers unsigned_drivers (now w))) w)
  end.

(** [main] from line 212 on, given what the two [run_command] calls returned
    ([None] when the command failed) and what the file system answers to
    the renderer.  [main] has no handler either. *)
Definition main (driver_v_output signed_driver_output : option str)
    (report_io : file_outcome) (w : World) : result unit * World :=
  if negb (truthy driver_v_output) && negb (truthy signed_driver_output) then
    (Ok tt, print (lit "Could not retrieve driver information. Exiting.") w)
  else
    let w := print (lit "Parsing driver information...") w in
    match parse_driver_v_output driver_v_output with
    | Raise e => (Raise e, w)
    | Ok all_drivers =>
        match parse_signed_driver_output signed_driver_output w with
        | (Raise e, w) => (Raise e, w)
        | (Ok unsigned_drivers, w) =>
            let stopped := stopped_drivers all_drivers in
            let w := print (lit "Generating report...") w in
            match generate_report_io report_io stopped unsigned_drivers w with
            | (Raise e, w) => (Raise e, w)
            | (Ok _, w) =>
                let w := print (nl ++ lit "--- Analysis Complete ---") w in
                let w := print (lit "Found " ++ str_of_nat (length stopped)
                                  ++ lit " stopped drivers.") w in
                let w := print (lit "Found " ++ str_of_nat (length unsigned_drivers)
                                  ++ lit " unsigned drivers.") w in
                (Ok tt,
                 print (lit "A detailed report has been saved to 'report.txt'.") w)
            end
        end
    end.

(** [sep.join(l)] *)
Fixpoint join (sep : str) (l : list str) : str :=
  match l with
  | [] => []
  | [x] => x
  | x :: l' => x ++ sep ++ join sep l'
  end.

(** What [subprocess.run(..., check=True)] can do: the process ended with
    status zero and this decoded standard output; the program was not found;
    the process ended with another status and this captured standard error;
    or the call raised something else (a [PermissionError], say), which
    [run_command] does not catch. *)
Inductive run_outcome :=
| Completed (out : str)
| FileNotFound
| CalledProcessError (stderr : str)
| OtherError (e : exn).

Definition run_command (command : list str) (outcome : run_outcome) (w : World)
  : result (option str) * World :=
  match outcome with
  | Completed out => (Ok (Some out), w)
  | FileNotFound =>
      match getitem command 0%Z with
      | Ok program =>
          (Ok None,
           print (lit "Error: The command '" ++ program
                  ++ lit "' was not found. Make sure it is in the system's PATH.") w)
      | Raise e => (Raise e, w)
      end
  | CalledProcessError stderr =>
      let w := print (lit "Error executing command: " ++ join (lit " ") command) w in
      (Ok None, print (lit "Error output (stderr):" ++ nl ++ stderr) w)
  | OtherError e => (Raise e, w)
  end.

(** [is_admin]: the truth value of what [IsUserAnAdmin] returned, or false
    when the call raised ([None]). *)
Definition is_admin (probe : option Z) : bool :=
  match probe with
  | Some r => negb (r =? 0)%Z
  | None => false
  end.

(** What one run of the program meets outside itself. *)
Record Invocation := mkInvocation {
  argv : list str;                (* [sys.argv] *)
  admin_probe : option Z;         (* the call in [is_admin] *)
  driverquery_v : run_outcome;    (* the first command *)
  driverquery_si : run_outcome;   (* the second command *)
  report_io : file_outcome        (* the file system, for the report *)
}.

Inductive termination :=
| Returned
| SystemExit (code : Z).

(** Line 195: [len(sys.argv) > 1 and sys.argv[1].lower() == view_web_flag]. *)
Definition view_web_flag : str := lit "--view-web".

Definition view_web_requested (args : list str) : result bool :=
  if 1 <? length args then
    arg ← getitem args 1%Z; Ok (bool_decide (lower arg = view_web_flag))
  else Ok false.

Definition command_v : list str :=
  [lit "driverquery"; lit "/v"; lit "/fo"; lit "list"].

Definition command_si : list str :=
  [lit "driverquery"; lit "/si"; lit "/fo"; lit "csv"].

(** [main] from its first line.  [open_web_page] is taken as given: what it
    prints and opens depends on the installation and the browser, and it
    catches every exception itself.  From line 212 on the work is that of
    [main] above.  An exception that a command or the renderer lets through
    ends the run. *)
Definition main_from_start (open_web_page : World -> World) (inv : Invocation)
    (w : World) : result termination * World :=
  match view_web_requested (argv inv) with
  | Raise e => (Raise e, w)
  | Ok true => (Ok (SystemExit 0), open_web_page w)
  | Ok false =>
      if negb (is_admin (admin_probe inv)) then
        let w := print (lit "Error: This script requires administrative privileges.") w in
        let w := print (lit "Please run it as an administrator.") w in
        (Ok (SystemExit 1), w)
      else
        let w := print (lit "Starting driver analysis... This may take a moment.") w in
        let w := print (lit "Executing 'driverquery /v' to get detailed driver info...") w in
        match run_command command_v (driverquery_v inv) w with
        | (Raise e, w) => (Raise e, w)
        | (Ok driver_v_output, w) =>
            let w := print (lit "Executing 'driverquery /si' to check for unsigned drivers...") w in
            match run_command command_si (driverquery_si inv) w with
            | (Raise e, w) => (Raise e, w)
            | (Ok signed_driver_output, w) =>
                match main driver_v_output signed_driver_output (report_io inv) w with
                | (Raise e, w) => (Raise e, w)
                | (Ok _, w) => (Ok Returned, w)
                end
            end
        end
  end.

(** A command produced text to parse. *)
Definition has_output (outcome : run_outcome) : bool :=
  match outcome with
  | Completed (_ :: _) => true
  | _ => false
  end.

(** What [run_command] returns when the call raised nothing it lets through. *)
Definition command_output (outcome : run_outcome) : option str :=
  match outcome with
  | Completed out => Some out
  | _ => None
  end.

(** Two lists of pieces whose first pieces agree once trailing whitespace is
    cut and whose other pieces give the same records. *)
Definition same_records_open (X Y : list str) : Prop :=
  rstrip (hd [] X) = rstrip (hd [] Y)
  /\ flat_map block_records (tl X) = flat_map block_records (tl Y).

(** The canonical field names of the header table. *)
Definition canonical_keys : list str :=
  [lit "ModuleName"; lit "DisplayName"; lit "Description"; lit "Driver Type";
   lit "State"; lit "PnPDeviceID"].

(** ** Facts about the string primitives *)

#[local] Arguments N.eqb : simpl never.

Section strip_facts.

Implicit Types s w m : str.

Lemma lstrip_blank_app w s : blank w -> lstrip (w ++ s) = lstrip s.
Proof.
  induction 1 as [|c w Hc _ IH]; simpl; [done|]. by rewrite Hc.
Qed.

Lemma lstrip_blank w : blank w -> lstrip w = [].
Proof.
  intros Hw. rewrite <- (app_nil_r w). by rewrite lstrip_blank_app.
Qed.

Lemma lstrip_fixed s :
  (forall c, head s = Some c -> isspace c = false) -> lstrip s = s.
Proof.
  destruct s as [|c s]; simpl; [done|]. intros H. by rewrite (H c).
Qed.

Lemma lstrip_decomp s :
  exists w, s = w ++ lstrip s /\ blank w
            /\ (forall c, head (lstrip s) = Some c -> isspace c = false).
Proof.
  induction s as [|c s (w & Hs & Hw & Hh)]; simpl.
  - exists []. repeat split; [constructor | done].
  - destruct (isspace c) eqn:Hc.
    + exists (c :: w). repeat split; [simpl; congruence | by constructor | done].
    + exists []. repeat split; [constructor | simpl; congruence].
Qed.

Lemma blank_reverse w : blank w -> blank (reverse w).
Proof. unfold blank. by rewrite Forall_reverse. Qed.

Lemma blank_app w1 w2 : blank w1 -> blank w2 -> blank (w1 ++ w2).
Proof. unfold blank. rewrite Forall_app. auto. Qed.

Lemma blank_replicate_NL n : blank (replicate n NL).
Proof. induction n; simpl; by constructor. Qed.

Lemma rstrip_blank_app s w : blank w -> rstrip (s ++ w) = rstrip s.
Proof.
  intros Hw. unfold rstrip. rewrite reverse_app.
  by rewrite lstrip_blank_app by by apply blank_reverse.
Qed.

Lemma rstrip_fixed s :
  (forall c, last s = Some c -> isspace c = false) -> rstrip s = s.
Proof.
  intros H. unfold rstrip. rewrite lstrip_fixed, reverse_involutive; [done|].
  intros c. rewrite head_reverse. apply H.
Qed.

(** [strip] returns the trimmed core of a string, and that core is unique. *)
Lemma strip_unique w1 m w2 :
  blank w1 -> blank w2 -> trimmed m -> strip (w1 ++ m ++ w2) = m.
Proof.
  intros H1 H2 [Hh Hl]. unfold strip. rewrite lstrip_blank_app by done.
  destruct m as [|c m'].
  - simpl. by rewrite lstrip_blank.
  - rewrite lstrip_fixed by (simpl; intros ? [= <-]; by apply Hh).
    rewrite rstrip_blank_app by done. by apply rstrip_fixed.
Qed.

Lemma strip_decomp s :
  exists w1 w2, s = w1 ++ strip s ++ w2 /\ blank w1 /\ blank w2 /\ trimmed (strip s).
Proof.
  destruct (lstrip_decomp s) as (w1 & Hs & Hw1 & Hh).
  destruct (lstrip_decomp (reverse (lstrip s))) as (w2 & Hr & Hw2 & Hl).
  exists w1, (reverse w2). unfold strip, rstrip.
  set (t := lstrip s) in *. set (u := lstrip (reverse t)) in *.
  assert (Ht : t = reverse u ++ reverse w2).
  { rewrite <- reverse_app, <- Hr. by rewrite reverse_involutive. }
  repeat split.
  - by rewrite <- Ht.
  - done.
  - by apply blank_reverse.
  - intros c Hc. apply Hh. rewrite Ht, head_app, Hc. done.
  - intros c. rewrite last_reverse. apply Hl.
Qed.

Lemma strip_blank w : blank w -> strip w = [].
Proof.
  intros Hw. rewrite <- (app_nil_r w). change (strip (w ++ [] ++ []) = []).
  apply strip_unique; [done | constructor | done].
Qed.

Lemma trimmed_nil : trimmed [].
Proof. done. Qed.

Lemma strip_blank_l w s : blank w -> strip (w ++ s) = strip s.
Proof.
  intros Hw. destruct (strip_decomp s) as (w1 & w2 & Hs & H1 & H2 & Ht).
  rewrite Hs at 1. rewrite app_assoc. apply strip_unique; [|done..].
  by apply blank_app.
Qed.

(** Stripping keeps every character that is not whitespace. *)
Lemma elem_of_strip c s : isspace c = false -> c ∈ strip s <-> c ∈ s.
Proof.
  intros Hc. destruct (strip_decomp s) as (w1 & w2 & Hs & H1 & H2 & _).
  rewrite Hs at 2. rewrite !elem_of_app.
  assert (Hn : forall w, blank w -> c ∉ w).
  { intros w Hw Hin. unfold blank in Hw. rewrite Forall_forall in Hw.
    apply Hw in Hin. congruence. }
  split; [auto|]. intros [H|[H|H]]; [by apply Hn in H | done | by apply Hn in H].
Qed.

End strip_facts.

Section split_facts.

Implicit Types s a r p : str.

Lemma split_from_nonempty sep ms k s : split_from sep ms k s <> [].
Proof.
  revert ms k. induction s as [|c s IH]; intros ms k; simpl; [done|].
  destruct k; [|apply IH].
  destruct (may_split ms && starts_with sep (c :: s)); [done|].
  unfold cons_head. by destruct (split_from sep ms 0 s).
Qed.

Lemma cons_head_app c (X Y : list str) :
  X <> [] -> cons_head c (X ++ Y) = cons_head c X ++ Y.
Proof. by destruct X. Qed.

Lemma split_from_exhausted sep s : split_from sep (Some 0) 0 s = [s].
Proof. induction s as [|c s IH]; simpl; [done|]. by rewrite IH. Qed.

Lemma contains_char c s : contains [c] s = true <-> c ∈ s.
Proof.
  induction s as [|b s IH]; simpl.
  - split; [done | by intros ?%elem_of_nil].
  - rewrite elem_of_cons, andb_true_r, orb_true_iff, IH, N.eqb_eq. done.
Qed.

Lemma contains_char_false c s : contains [c] s = false <-> c ∉ s.
Proof.
  rewrite <- contains_char. by destruct (contains [c] s).
Qed.

(** Cutting at a character keeps every other character in some piece. *)
Lemma elem_of_split_char x c s :
  x <> c -> x ∈ s <-> exists p, p ∈ split [c] s /\ x ∈ p.
Proof.
  intros Hx. unfold split. induction s as [|b s IH]; simpl.
  - split; [by intros ?%elem_of_nil|].
    intros (p & ->%list_elem_of_singleton & H). done.
  - rewrite andb_true_r, elem_of_cons, IH. destruct (N.eqb_spec c b) as [->|Hb].
    + split.
      * intros [->|(p & Hp & H)]; [done|]. exists p. by rewrite elem_of_cons; auto.
      * intros (p & [->|Hp]%elem_of_cons & H); [by apply elem_of_nil in H|eauto].
    + pose proof (split_from_nonempty [c] None 0 s) as Hne.
      destruct (split_from [c] None 0 s) as [|p0 ps]; [done|]. simpl. split.
      * intros [->|(p & [->|Hp]%elem_of_cons & H)].
        -- exists (b :: p0). split; apply list_elem_of_here.
        -- exists (b :: p0). split; [apply list_elem_of_here|by apply list_elem_of_further].
        -- exists p. split; [by apply list_elem_of_further|done].
      * intros (p & [->|Hp]%elem_of_cons & H).
        -- apply elem_of_cons in H as [->|H]; [by left|].
           right. exists p0. split; [apply list_elem_of_here|done].
        -- right. exists p. split; [by apply list_elem_of_further|done].
Qed.

(** With [maxsplit = 1] the cut is at the first occurrence. *)
Lemma split_max_first c k v :
  c ∉ k -> split_max [c] 1 (k ++ c :: v) = [k; v].
Proof.
  unfold split_max. induction k as [|b k IH]; intros Hk; simpl.
  - by rewrite N.eqb_refl, split_from_exhausted.
  - apply not_elem_of_cons in Hk as [Hb Hk].
    destruct (N.eqb_spec c b) as [->|_]; [done|]. simpl. by rewrite IH.
Qed.

Lemma replace_char_filter q s :
  replace [q] [] s = filter (fun c => c <> q) s.
Proof.
  unfold replace. induction s as [|b s IH]; simpl; [done|].
  rewrite andb_true_r, filter_cons. destruct (N.eqb_spec q b) as [->|Hb].
  - rewrite decide_False by auto. done.
  - rewrite decide_True by auto. by rewrite IH.
Qed.

Lemma not_elem_of_replace_char q s : q ∉ replace [q] [] s.
Proof.
  rewrite replace_char_filter, list_elem_of_filter. by intros [? _].
Qed.

(** Equations of [split] at the blank-line separator. *)
Lemma split2_skip k c s :
  split_from (nl ++ nl) None (S k) (c :: s) = split_from (nl ++ nl) None k s.
Proof. done. Qed.

Lemma split2_match s :
  split (nl ++ nl) (NL :: NL :: s) = [] :: split (nl ++ nl) s.
Proof. done. Qed.

Lemma split2_other c s :
  c <> NL -> split (nl ++ nl) (c :: s) = cons_head c (split (nl ++ nl) s).
Proof.
  intros Hc. unfold split. simpl. by destruct (N.eqb_spec NL c) as [<-|_].
Qed.

Lemma split2_single s :
  head s <> Some NL -> split (nl ++ nl) (NL :: s) = cons_head NL (split (nl ++ nl) s).
Proof.
  intros Hs. unfold split. destruct s as [|d s]; simpl; [done|].
  destruct (N.eqb_spec NL d) as [<-|_]; [by destruct Hs|done].
Qed.

(** A blank-line separator that follows a character other than a line feed
    is always a cut point. *)
Lemma split2_app_from a k r :
  k <= length a -> last a <> Some NL ->
  split_from (nl ++ nl) None k (a ++ NL :: NL :: r)
  = split_from (nl ++ nl) None k a ++ split (nl ++ nl) r.
Proof.
  revert k. induction a as [|c a IH]; intros k Hk Hl.
  - simpl in Hk. assert (k = 0) as -> by lia. done.
  - assert (Hl' : last a <> Some NL).
    { destruct a; [done|]. by rewrite last_cons_cons in Hl. }
    destruct k as [|k].
    + destruct (decide (c = NL)) as [->|Hc].
      * destruct a as [|d a]; [done|].
        destruct (decide (d = NL)) as [->|Hd].
        -- change (([] : str) :: split_from (nl ++ nl) None 1 (NL :: a ++ NL :: NL :: r)
                   = ([] :: split_from (nl ++ nl) None 1 (NL :: a)) ++ split (nl ++ nl) r).
           rewrite <- app_comm_cons. f_equal.
           apply (IH 1); [simpl; lia|done].
        -- change (split (nl ++ nl) (NL :: (d :: a) ++ NL :: NL :: r)
                   = split (nl ++ nl) (NL :: d :: a) ++ split (nl ++ nl) r).
           rewrite !split2_single by (simpl; congruence).
           unfold split at 1. rewrite (IH 0) by (simpl; lia || done).
           rewrite cons_head_app by apply split_from_nonempty. done.
      * change (split (nl ++ nl) (c :: a ++ NL :: NL :: r)
                = split (nl ++ nl) (c :: a) ++ split (nl ++ nl) r).
        rewrite !split2_other by done.
        unfold split at 1. rewrite (IH 0) by (simpl; lia || done).
        rewrite cons_head_app by apply split_from_nonempty. done.
    + simpl. apply IH; [simpl in Hk; lia | done].
Qed.

Lemma split2_app a r :
  last a <> Some NL ->
  split (nl ++ nl) (a ++ NL :: NL :: r) = split (nl ++ nl) a ++ split (nl ++ nl) r.
Proof. intros Hl. apply (split2_app_from a 0 r); [lia|done]. Qed.

(** Every string is a core with no line feed at its end, followed by
    line feeds; and line feeds followed by a core that starts otherwise. *)
Lemma trailing_NL_decomp a :
  exists a0 i, a = a0 ++ replicate i NL /\ last a0 <> Some NL.
Proof.
  induction a as [|x a (a0 & i & Ha & Hl)] using rev_ind.
  - by exists [], 0.
  - destruct (decide (x = NL)) as [->|Hx].
    + exists a0, (S i). split; [|done].
      by rewrite Ha, replicate_S_end, app_assoc.
    + exists (a ++ [x]), 0. rewrite app_nil_r, last_snoc. split; congruence.
Qed.

Lemma leading_NL_decomp b :
  exists j b0, b = replicate j NL ++ b0 /\ head b0 <> Some NL.
Proof.
  induction b as [|x b (j & b0 & Hb & Hh)].
  - by exists 0, [].
  - destruct (decide (x = NL)) as [->|Hx].
    + exists (S j), b0. split; [|done]. simpl. by rewrite <- Hb.
    + exists 0, (x :: b). simpl. split; congruence.
Qed.

End split_facts.

(** ** The verbose record parser *)

Section verbose_parser_facts.

Implicit Types (driver d : DriverRecord) (line record k v : str).

Lemma bind_Ok {A B : Type} (a : A) (f : A -> result B) : (Ok a ≫= f) = f a.
Proof. done. Qed.

Lemma parse_line_no_colon driver line :
  COLON ∉ line -> parse_line driver line = Ok driver.
Proof.
  intros H. unfold parse_line. by rewrite (proj2 (contains_char_false _ _) H).
Qed.

Lemma parse_line_colon driver k v :
  COLON ∉ k ->
  parse_line driver (k ++ COLON :: v)
  = Ok (<[normalize_key (strip k) := strip v]> driver).
Proof.
  intros H. unfold parse_line.
  rewrite (proj2 (contains_char _ _)) by (rewrite elem_of_app, elem_of_cons; auto).
  by rewrite split_max_first.
Qed.

Lemma parse_line_cases driver line :
  ((COLON ∉ line) /\ parse_line driver line = Ok driver)
  \/ (exists k v, line = k ++ COLON :: v /\ (COLON ∉ k)
        /\ parse_line driver line = Ok (<[normalize_key (strip k) := strip v]> driver)).
Proof.
  destruct (decide (COLON ∈ line)) as [Hin|Hnot].
  - right. apply list_elem_of_split_l in Hin as (k & v & -> & Hk).
    exists k, v. auto using parse_line_colon.
  - left. auto using parse_line_no_colon.
Qed.

(** The inner loop never raises, and it leaves the record empty exactly
    when no line has a colon. *)
Lemma parse_lines_ok lines driver :
  exists d, for_each parse_line driver lines = Ok d
            /\ ((d = ∅) <-> ((driver = ∅) /\ forall l, l ∈ lines -> COLON ∉ l)).
Proof.
  revert driver. induction lines as [|l lines IH]; intros driver; simpl.
  - exists driver. split; [done|]. split; [|tauto].
    intros ->. split; [done|]. by intros l ?%elem_of_nil.
  - destruct (parse_line_cases driver l) as [[Hn ->]|(k & v & -> & Hk & ->)];
      rewrite bind_Ok.
    + destruct (IH driver) as (d & -> & Hd). exists d. split; [done|].
      rewrite Hd. split.
      * intros [-> H]. split; [done|]. intros l' [->|?]%elem_of_cons; auto.
      * intros [-> H]. split; [done|]. intros l' ?. apply H. by apply list_elem_of_further.
    + destruct (IH (<[normalize_key (strip k) := strip v]> driver)) as (d & -> & Hd).
      exists d. split; [done|]. rewrite Hd. split.
      * intros [H _]. by apply insert_non_empty in H.
      * intros [_ H]. exfalso. apply (H (k ++ COLON :: v)); [apply list_elem_of_here|].
        rewrite elem_of_app, elem_of_cons. auto.
Qed.

Lemma elem_of_record_lines record :
  COLON ∈ record <-> exists l, l ∈ split nl (strip record) /\ COLON ∈ l.
Proof.
  rewrite <- (elem_of_strip COLON record) by done.
  by apply elem_of_split_char.
Qed.

Lemma has_colon_line_true block : has_colon_line block = true <-> COLON ∈ block.
Proof.
  unfold has_colon_line. rewrite existsb_exists, (elem_of_split_char COLON NL) by done.
  split; intros (l & Hl & H); exists l.
  - apply list_elem_of_In in Hl. by apply contains_char in H.
  - apply list_elem_of_In in Hl. by apply contains_char in H.
Qed.

Lemma parse_record_ok drivers record :
  parse_record drivers record = Ok (drivers ++ block_records record).
Proof.
  unfold block_records, parse_record.
  destruct (parse_lines_ok (split nl (strip record)) ∅) as (d & -> & _).
  rewrite !bind_Ok. destruct (bool_decide (d <> ∅)); [done|].
  by rewrite app_nil_r.
Qed.

Lemma block_records_cases record :
  ((COLON ∈ record) /\ exists d, d <> ∅ /\ block_records record = [d])
  \/ ((COLON ∉ record) /\ block_records record = []).
Proof.
  unfold block_records, parse_record.
  destruct (parse_lines_ok (split nl (strip record)) ∅) as (d & -> & Hd).
  rewrite bind_Ok. destruct (decide (COLON ∈ record)) as [Hin|Hnot].
  - left. split; [done|]. exists d.
    assert (d <> ∅) as Hne.
    { intros [_ H]%Hd. apply elem_of_record_lines in Hin as (l & Hl & Hc).
      by apply (H l). }
    by rewrite bool_decide_eq_true_2.
  - right. split; [done|].
    assert (d = ∅) as ->.
    { apply Hd. split; [done|]. intros l Hl Hc. apply Hnot.
      apply elem_of_record_lines. eauto. }
    by rewrite bool_decide_eq_false_2 by auto.
Qed.

Lemma block_records_strip record1 record2 :
  strip record1 = strip record2 -> block_records record1 = block_records record2.
Proof. intros H. unfold block_records, parse_record. by rewrite H. Qed.

Lemma block_records_nil : block_records [] = [].
Proof.
  destruct (block_records_cases []) as [[H _]|[_ H]]; [by apply elem_of_nil in H|done].
Qed.

Lemma parse_records_ok records drivers :
  for_each parse_record drivers records
  = Ok (drivers ++ flat_map block_records records).
Proof.
  revert drivers. induction records as [|r records IH]; intros drivers; simpl.
  - by rewrite app_nil_r.
  - rewrite parse_record_ok, bind_Ok, IH. by rewrite <- app_assoc.
Qed.

Lemma parse_driver_v_output_ok c s :
  parse_driver_v_output (Some (c :: s))
  = Ok (flat_map block_records (blocks (c :: s))).
Proof. unfold parse_driver_v_output. by rewrite parse_records_ok. Qed.

Lemma length_block_records bl :
  length (flat_map block_records bl) = length (List.filter has_colon_line bl).
Proof.
  induction bl as [|b bl IH]; simpl; [done|]. rewrite length_app, IH.
  destruct (block_records_cases b) as [[Hin (d & _ & ->)]|[Hnot ->]].
  - by rewrite (proj2 (has_colon_line_true b) Hin).
  - destruct (has_colon_line b) eqn:E; [|done].
    by apply has_colon_line_true in E.
Qed.

Lemma block_records_nonempty bl d :
  d ∈ flat_map block_records bl -> d <> ∅.
Proof.
  rewrite list_elem_of_In, in_flat_map. intros (b & _ & Hd).
  destruct (block_records_cases b) as [[_ (d' & Hne & E)]|[_ E]];
    rewrite E in Hd; simpl in Hd; [|done].
  by destruct Hd as [<-|[]].
Qed.

End verbose_parser_facts.

(** ** Blank-line separators of any width *)

Section wide_separators.

Implicit Types a b s : str.

Lemma parse_driver_v_output_blocks s :
  parse_driver_v_output (Some s) = Ok (flat_map block_records (blocks s)).
Proof.
  destruct s as [|c s]; [|apply parse_driver_v_output_ok].
  unfold blocks. simpl. by rewrite block_records_nil.
Qed.

Lemma records_cons_head_NL (pieces : list str) :
  pieces <> [] ->
  flat_map block_records (cons_head NL pieces) = flat_map block_records pieces.
Proof.
  destruct pieces as [|p ps]; [done|]. intros _. cbn [cons_head flat_map].
  rewrite (block_records_strip (NL :: p) p); [done|].
  apply (strip_blank_l [NL]). by repeat constructor.
Qed.

(** Line feeds in front of the first block change nothing. *)
Lemma records_leading_NL m b :
  head b <> Some NL ->
  flat_map block_records (split (nl ++ nl) (replicate m NL ++ b))
  = flat_map block_records (split (nl ++ nl) b).
Proof.
  intros Hb. induction m as [m IH] using lt_wf_ind. destruct m as [|[|m]].
  - done.
  - cbn [replicate app]. rewrite split2_single by done.
    apply records_cons_head_NL, split_from_nonempty.
  - cbn [replicate app]. rewrite split2_match. cbn [flat_map].
    rewrite block_records_nil. apply IH. lia.
Qed.

Lemma records_separator a k b :
  last a <> Some NL -> head b <> Some NL ->
  flat_map block_records (split (nl ++ nl) (a ++ replicate (2 + k) NL ++ b))
  = flat_map block_records (split (nl ++ nl) a)
    ++ flat_map block_records (split (nl ++ nl) b).
Proof.
  intros Ha Hb. cbn [replicate app Nat.add]. rewrite split2_app by done.
  rewrite flat_map_app. f_equal.
  by apply records_leading_NL.
Qed.

Lemma records_wide a b extra :
  flat_map block_records (split (nl ++ nl) (a ++ replicate (2 + extra) NL ++ b))
  = flat_map block_records (split (nl ++ nl) (a ++ replicate 2 NL ++ b)).
Proof.
  destruct (trailing_NL_decomp a) as (a0 & i & -> & Ha).
  destruct (leading_NL_decomp b) as (j & b0 & -> & Hb).
  assert (H : forall m,
    (a0 ++ replicate i NL) ++ replicate (2 + m) NL ++ replicate j NL ++ b0
    = a0 ++ replicate (2 + (i + m + j)) NL ++ b0).
  { intros m. rewrite <- app_assoc. f_equal. rewrite !app_assoc.
    rewrite <- !replicate_add.
    replace (i + (2 + m) + j) with (2 + (i + m + j)) by lia. done. }
  change (replicate 2 NL) with (replicate (2 + 0) NL).
  rewrite (H extra), (H 0). by rewrite !records_separator by done.
Qed.

(** What the outer [strip] leaves of a text with whitespace in the middle. *)
Lemma strip_sandwich a b :
  (forall w, blank w -> strip (a ++ w ++ b) = strip b)
  \/ (forall w, blank w -> strip (a ++ w ++ b) = strip a)
  \/ (exists a' b', forall w, blank w -> strip (a ++ w ++ b) = a' ++ w ++ b').
Proof.
  destruct (strip_decomp a) as (wa1 & wa2 & Ea & Ha1 & Ha2 & [Hah Hal]).
  destruct (strip_decomp b) as (wb1 & wb2 & Eb & Hb1 & Hb2 & [Hbh Hbl]).
  destruct (strip a) as [|ca ma] eqn:Sa.
  { left. intros w Hw. rewrite app_assoc. apply strip_blank_l.
    rewrite Ea. simpl. auto using blank_app. }
  destruct (strip b) as [|cb mb] eqn:Sb.
  { right. left. intros w Hw. rewrite Ea at 1. rewrite <- !app_assoc.
    rewrite Eb. apply strip_unique; [done| |done].
    simpl. auto using blank_app. }
  right. right. exists ((ca :: ma) ++ wa2), (wb1 ++ cb :: mb). intros w Hw.
  rewrite Ea, Eb at 1.
  replace ((wa1 ++ (ca :: ma) ++ wa2) ++ w ++ wb1 ++ (cb :: mb) ++ wb2)
    with (wa1 ++ (((ca :: ma) ++ wa2) ++ w ++ wb1 ++ cb :: mb) ++ wb2)
    by (by rewrite <- !app_assoc).
  apply strip_unique; [done..|]. split.
  - intros c. rewrite <- !app_assoc. simpl. apply Hah.
  - intros c. rewrite !app_assoc, last_app_cons. intros H. apply Hbl.
    by rewrite <- H.
Qed.

Lemma blocks_wide a b extra :
  flat_map block_records (blocks (a ++ replicate (2 + extra) NL ++ b))
  = flat_map block_records (blocks (a ++ replicate 2 NL ++ b)).
Proof.
  unfold blocks.
  destruct (strip_sandwich a b) as [H|[H|(a' & b' & H)]];
    rewrite !H by apply blank_replicate_NL; [done..|].
  apply records_wide.
Qed.

End wide_separators.

(** ** The signed-status parser *)

Section signed_parser_facts.

Implicit Types (line text hline : str) (rows header : list str) (w : World).

Lemma getitem_nat {A : Type} (l : list A) n x :
  l !! n = Some x -> getitem l (Z.of_nat n) = Ok x.
Proof.
  intros H. pose proof (lookup_lt_Some _ _ _ H) as Hn. unfold getitem.
  destruct (Z.ltb_spec (Z.of_nat n) 0) as [?|_]; [lia|].
  rewrite (proj2 (Z.leb_le _ _)), (proj2 (Z.ltb_lt _ _)) by lia.
  simpl. by rewrite Nat2Z.id, H.
Qed.

Lemma index_list_find x header :
  index x header
  = match list_find (fun y => y = x) header with
    | Some (i, _) => Ok (Z.of_nat i)
    | None => Raise ValueError
    end.
Proof.
  induction header as [|y header IH]; simpl; [done|].
  destruct (decide (y = x)); [done|]. rewrite IH.
  destruct (list_find _ header) as [[i z]|]; simpl; [|done].
  f_equal. lia.
Qed.

Lemma elem_of_list_find x header :
  x ∈ header <-> is_Some (list_find (fun y => y = x) header).
Proof.
  split.
  - intros H. by apply (list_find_elem_of (fun y => y = x) header x).
  - intros [[i y] (Hi & -> & _)%list_find_Some]. by eapply list_elem_of_lookup_2.
Qed.

Lemma find_is_signed_index_spec header :
  find_is_signed_index header
  = Ok (match label_column header with
        | Some i => Z.of_nat i
        | None => (-1)%Z
        end).
Proof.
  unfold find_is_signed_index, label_column. rewrite !index_list_find.
  pose proof (elem_of_list_find IsSigned header) as H1.
  pose proof (elem_of_list_find Esta_firmado header) as H2.
  destruct (list_find (fun h => h = IsSigned) header) as [[i y]|].
  { by rewrite bool_decide_eq_true_2 by (apply H1; eauto). }
  rewrite bool_decide_eq_false_2 by (intros [? ?]%H1; done).
  destruct (list_find (fun h => h = Esta_firmado) header) as [[i y]|]; simpl.
  { by rewrite bool_decide_eq_true_2 by (apply H2; eauto). }
  by rewrite bool_decide_eq_false_2 by (intros [? ?]%H2; done).
Qed.

Lemma clean_fields_nonempty line : clean_fields line <> [].
Proof.
  unfold clean_fields, split. pose proof (split_from_nonempty [COMMA] None 0 line).
  by destruct (split_from [COMMA] None 0 line).
Qed.

(** One turn of the row loop: the row adds its device name exactly when it
    is selected, and never raises. *)
Lemma parse_row_spec col acc line :
  parse_row (Z.of_nat col) acc line
  = Ok (acc ++ if decide (row_unsigned col line) then [device_name line] else []).
Proof.
  unfold parse_row, device_name, truthy.
  pose proof (clean_fields_nonempty line) as Hne.
  destruct (decide (row_unsigned col line)) as [[Hs Hf]|Hn].
  - destruct (strip line) as [|c s]; [done|].
    destruct (clean_fields line) as [|name parts]; [done|].
    destruct ((name :: parts) !! col) as [field|] eqn:Hc; [|done].
    injection Hf as Hf. pose proof (lookup_lt_Some _ _ _ Hc) as Hlt.
    rewrite Z.gtb_ltb, (proj2 (Z.ltb_lt _ _)) by lia.
    rewrite (getitem_nat _ _ _ Hc), bind_Ok.
    rewrite bool_decide_eq_true_2 by done.
    change device_name_index with (Z.of_nat 0).
    by rewrite (getitem_nat (name :: parts) 0 name).
  - rewrite app_nil_r. destruct (strip line) as [|c s] eqn:Es; [done|].
    rewrite Z.gtb_ltb.
    destruct (Z.ltb_spec (Z.of_nat col) (Z.of_nat (length (clean_fields line))))
      as [Hlt|Hge]; [|done].
    destruct (lookup_lt_is_Some_2 (clean_fields line) col) as [field Hc]; [lia|].
    rewrite (getitem_nat _ _ _ Hc), bind_Ok.
    rewrite bool_decide_eq_false_2; [done|].
    intros E. apply Hn. split; [by rewrite Es|by rewrite Hc, <- E].
Qed.

Lemma parse_rows_spec col rows acc :
  for_each (parse_row (Z.of_nat col)) acc rows = Ok (acc ++ unsigned_names col rows).
Proof.
  revert acc. induction rows as [|r rows IH]; intros acc; simpl.
  - by rewrite app_nil_r.
  - rewrite parse_row_spec, bind_Ok, IH. f_equal. rewrite <- app_assoc. f_equal.
    unfold unsigned_names. rewrite filter_cons. by destruct (decide (row_unsigned col r)).
Qed.

(** The parser on a listing with a header line and at least one more line. *)
Lemma parse_signed_table text w hline rows :
  text <> [] -> split nl (strip text) = hline :: rows -> rows <> [] ->
  parse_signed_driver_output (Some text) w
  = match label_column (clean_fields hline) with
    | Some col => (Ok (unsigned_names col rows), w)
    | None =>
        if 1 <? length (clean_fields hline)
        then (Ok (unsigned_names 1 rows), print signature_warning w)
        else (Ok [], print signature_warning w)
    end.
Proof.
  intros Ht Hl Hr. destruct text as [|c s]; [done|].
  unfold parse_signed_driver_output. rewrite Hl.
  destruct rows as [|r rows]; [done|].
  change (length (hline :: r :: rows) <? 2) with false. cbv iota.
  change (getitem (hline :: r :: rows) 0) with (getitem (hline :: r :: rows) (Z.of_nat 0)).
  rewrite (getitem_nat (hline :: r :: rows) 0 hline) by done.
  rewrite bind_Ok. cbv zeta. rewrite find_is_signed_index_spec, bind_Ok.
  destruct (label_column (clean_fields hline)) as [col|].
  - destruct (Z.eqb_spec (Z.of_nat col) (-1)) as [?|_]; [lia|].
    by rewrite (parse_rows_spec col _ []).
  - change (-1 =? -1)%Z with true. cbv iota.
    destruct (1 <? length (clean_fields hline)); [|done].
    by rewrite (parse_rows_spec 1 _ []).
Qed.

Lemma parse_signed_short text w :
  length (split nl (strip text)) < 2 ->
  parse_signed_driver_output (Some text) w = (Ok [], w).
Proof.
  intros H. destruct text as [|c s]; [done|]. unfold parse_signed_driver_output.
  destruct (Nat.ltb_spec (length (split nl (strip (c :: s)))) 2); [done|lia].
Qed.

(** The parser never raises; what it returns is the device names of the
    rows selected on one column, or nothing. *)
Lemma parse_signed_shape text w :
  exists sel : option nat,
    fst (parse_signed_driver_output (Some text) w)
    = Ok (from_option (fun col => unsigned_names col (data_rows text)) [] sel).
Proof.
  destruct (decide (text = [])) as [->|Ht]; [by exists None|].
  unfold data_rows.
  destruct (split nl (strip text)) as [|hline [|r rows]] eqn:El.
  - exists None. by rewrite parse_signed_short by (rewrite El; simpl; lia).
  - exists None. by rewrite parse_signed_short by (rewrite El; simpl; lia).
  - rewrite (parse_signed_table text w hline (r :: rows)) by done.
    destruct (label_column (clean_fields hline)) as [col|]; [by exists (Some col)|].
    destruct (1 <? length (clean_fields hline)); [by exists (Some 1)|by exists None].
Qed.

Lemma device_name_field line :
  exists p rest, split [COMMA] line = p :: rest
                 /\ device_name line = replace [DQUOTE] [] (strip p).
Proof.
  unfold device_name, clean_fields, split.
  pose proof (split_from_nonempty [COMMA] None 0 line).
  destruct (split_from [COMMA] None 0 line) as [|p rest]; [done|]. by exists p, rest.
Qed.

End signed_parser_facts.

(** ** The report renderer *)

Section report_facts.

Implicit Types (f text : str) (w : World).

(** Two writes to the same open file amount to one. *)
Lemma write_app f a b w : write f b (write f a w) = write f (a ++ b) w.
Proof.
  unfold write. simpl. f_equal. rewrite alter_alter_eq. apply alter_ext.
  intros c _. simpl. by rewrite app_assoc.
Qed.

Lemma write_stopped_entry f pre w driver :
  write_stopped f (write f pre w) driver = write f (pre ++ stopped_entry driver) w.
Proof.
  unfold write_stopped, stopped_entry. rewrite !write_app.
  f_equal; by rewrite <- ?app_assoc.
Qed.

Lemma fold_write_stopped f stopped pre w :
  fold_left (write_stopped f) stopped (write f pre w)
  = write f (pre ++ concat (stopped_entry <$> stopped)) w.
Proof.
  revert pre. induction stopped as [|d stopped IH]; intros pre; simpl.
  - by rewrite app_nil_r.
  - by rewrite write_stopped_entry, IH, <- app_assoc.
Qed.

Lemma fold_write_unsigned f unsigned pre w :
  fold_left (write_unsigned f) unsigned (write f pre w)
  = write f (pre ++ concat (unsigned_entry <$> unsigned)) w.
Proof.
  revert pre. induction unsigned as [|n unsigned IH]; intros pre; simpl.
  - by rewrite app_nil_r.
  - unfold write_unsigned at 2. by rewrite write_app, IH, <- app_assoc.
Qed.

(** The renderer announces the report, truncates [report.txt] and writes
    the whole document to it. *)
Lemma generate_report_spec stopped unsigned w :
  generate_report stopped unsigned w
  = write report_path (report_text stopped unsigned (now w))
      (open_w report_path
         (print (lit "Generating report at: " ++ abspath w report_path) w)).
Proof.
  unfold generate_report. cbv zeta.
  destruct stopped as [|d stopped]; destruct unsigned as [|n unsigned];
    rewrite ?write_app, ?fold_write_stopped, ?write_app, ?fold_write_unsigned,
      ?write_app;
    f_equal; unfold report_text; by rewrite <- !app_assoc.
Qed.

Lemma generate_report_files stopped unsigned w :
  files (generate_report stopped unsigned w)
  = <[report_path := report_text stopped unsigned (now w)]> (files w).
Proof.
  rewrite generate_report_spec. unfold write, open_w, print. simpl.
  by rewrite alter_insert_eq.
Qed.

Lemma generate_report_stdout stopped unsigned w :
  stdout (generate_report stopped unsigned w)
  = stdout w ++ [lit "Generating report at: " ++ abspath w report_path].
Proof. by rewrite generate_report_spec. Qed.

End report_facts.

(** ** The pipeline of [main] *)

Section main_facts.

Lemma files_print (text : str) (w : World) : files (print text w) = files w.
Proof. done. Qed.

Lemma parse_driver_v_output_total (output : option str) :
  exists drivers, parse_driver_v_output output = Ok drivers.
Proof.
  destruct output as [text|]; [|by exists []].
  eexists. apply parse_driver_v_output_blocks.
Qed.

Lemma parse_signed_total (output : option str) (w : World) :
  exists names, fst (parse_signed_driver_output output w) = Ok names.
Proof.
  destruct output as [text|]; [|by exists []].
  destruct (parse_signed_shape text w) as [sel ->]. by eexists.
Qed.

(** The parser prints at most the warning and touches nothing else. *)
Lemma parse_signed_world (output : option str) (w : World) :
  snd (parse_signed_driver_output output w) = w
  \/ snd (parse_signed_driver_output output w) = print signature_warning w.
Proof.
  destruct output as [text|]; [|by left].
  destruct (decide (text = [])) as [->|Ht]; [by left|].
  destruct (split nl (strip text)) as [|hline [|r rows]] eqn:El.
  - left. by rewrite parse_signed_short by (rewrite El; simpl; lia).
  - left. by rewrite parse_signed_short by (rewrite El; simpl; lia).
  - rewrite (parse_signed_table text w hline (r :: rows)) by done.
    destruct (label_column (clean_fields hline)); [by left|].
    destruct (1 <? length (clean_fields hline)); by right.
Qed.

(** When a command returned something, [main] parses, filters and calls
    the renderer; what becomes of [report.txt] is what the file system makes
    of the report, and [main] raises exactly what the renderer lets through. *)
Lemma main_renders (driver_v_output signed_driver_output : option str)
    (io : file_outcome) (w : World) :
  truthy driver_v_output || truthy signed_driver_output = true ->
  exists all_drivers unsigned,
    parse_driver_v_output driver_v_output = Ok all_drivers
    /\ fst (parse_signed_driver_output signed_driver_output
              (print (lit "Parsing driver information...") w)) = Ok unsigned
    /\ match io with
       | FileWritten =>
           exists w',
             main driver_v_output signed_driver_output io w = (Ok tt, w')
             /\ files w'
                = <[report_path :=
                      report_text (stopped_drivers all_drivers) unsigned (now w)]>
                    (files w)
       | OpenRaises e =>
           exists w',
             main driver_v_output signed_driver_output io w = (Raise e, w')
             /\ files w' = files w
       | WriteRaises e kept =>
           exists w',
             main driver_v_output signed_driver_output io w = (Raise e, w')
             /\ files w'
                = <[report_path :=
                      take kept
                        (report_text (stopped_drivers all_drivers) unsigned (now w))]>
                    (files w)
       end.
Proof.
  intros Hsome. unfold main.
  assert (negb (truthy driver_v_output) && negb (truthy signed_driver_output) = false)
    as -> by (by destruct (truthy driver_v_output), (truthy signed_driver_output)).
  destruct (parse_driver_v_output_total driver_v_output) as [all_drivers ->].
  set (w1 := print (lit "Parsing driver information...") w).
  destruct (parse_signed_total signed_driver_output w1) as [unsigned Hu].
  pose proof (parse_signed_world signed_driver_output w1) as Hw.
  destruct (parse_signed_driver_output signed_driver_output w1) as [r w2].
  simpl in Hu, Hw. subst r.
  exists all_drivers, unsigned. split; [done|]. split; [done|].
  assert (Hf : files w2 = files w) by (by destruct Hw as [->| ->]).
  assert (Hn : now w2 = now w) by (by destruct Hw as [->| ->]).
  destruct io as [|e|e kept]; cbn [generate_report_io]; eexists; (split; [done|]).
  - rewrite !files_print, generate_report_files, files_print. cbn [now print].
    by rewrite Hf, Hn.
  - by rewrite !files_print.
  - cbn [write open_w print files now]. by rewrite alter_insert_eq, Hf, Hn.
Qed.

(** When neither command returned anything, [main] stops before the parsers
    and the renderer run. *)
Lemma main_without_data (io : file_outcome) (w : World) :
  main None None io w
  = (Ok tt, print (lit "Could not retrieve driver information. Exiting.") w).
Proof. done. Qed.

End main_facts.

(** ** The specification's sample listings *)

Example parse_listing_acpi :
  parse_driver_v_output (Some listing_acpi)
  = Ok [<[lit "ModuleName" := lit "ACPI"]> (<[lit "State" := lit "Stopped"]> ∅)].
Proof. by vm_compute. Qed.

Example parse_table_sample :
  fst (parse_signed_driver_output (Some table_sample) world0) = Ok [lit "dev1"].
Proof. by vm_compute. Qed.

Example spanish_label_same_key :
  parse_driver_v_output (Some (lit "Nombre de m" ++ [243%N] ++ lit "dulo: ACPI"))
  = parse_driver_v_output (Some (lit "Module Name: ACPI")).
Proof. by vm_compute. Qed.

(** ** Properties of the specification *)

Lemma for_each_app {A S : Type} (body : S -> A -> result S) (s : S) (l1 l2 : list A) :
  for_each body s (l1 ++ l2) = for_each body s l1 ≫= fun s' => for_each body s' l2.
Proof.
  revert s. induction l1 as [|x l1 IH]; intros s; simpl; [done|].
  destruct (body s x); simpl; [apply IH|done].
Qed.

(** Lines that do not write a key leave its entry as it was. *)
Lemma parse_lines_keep (lines : list str) (driver : DriverRecord) (key : str) :
  (forall l, l ∈ lines -> forall k v, l = k ++ COLON :: v -> COLON ∉ k ->
             normalize_key (strip k) <> key) ->
  exists d, for_each parse_line driver lines = Ok d /\ d !! key = driver !! key.
Proof.
  revert driver. induction lines as [|l lines IH]; intros driver H; simpl.
  - by exists driver.
  - assert (Hl : forall l', l' ∈ lines -> forall k v, l' = k ++ COLON :: v ->
                   COLON ∉ k -> normalize_key (strip k) <> key).
    { intros l' ?. apply H. by apply list_elem_of_further. }
    destruct (parse_line_cases driver l) as [[_ ->]|(k & v & El & Hk & ->)];
      rewrite bind_Ok.
    + by apply IH.
    + destruct (IH (<[normalize_key (strip k) := strip v]> driver) Hl) as (d & -> & Hd).
      exists d. split; [done|]. rewrite Hd. apply lookup_insert_ne.
      by apply (H l (list_elem_of_here _ _) k v).
Qed.

Lemma filter_filter_eq (d : DriverRecord) (l : list DriverRecord) :
  is_stopped d ->
  filter (fun x => x = d) (stopped_drivers l) = filter (fun x => x = d) l.
Proof.
  intros Hd. unfold stopped_drivers. induction l as [|x l IH]; [done|].
  rewrite !filter_cons. destruct (decide (is_stopped x)) as [Hx|Hx].
  - rewrite filter_cons, IH. done.
  - rewrite IH. destruct (decide (x = d)) as [->|]; [done|done].
Qed.

Lemma filter_bool_decide {A : Type} (P : A -> Prop) `{forall x, Decision (P x)}
    (l : list A) :
  filter P l = List.filter (fun x => bool_decide (P x)) l.
Proof.
  induction l as [|x l IH]; [done|]. rewrite filter_cons. simpl.
  destruct (decide (P x)).
  - by rewrite bool_decide_eq_true_2, IH.
  - by rewrite bool_decide_eq_false_2, IH.
Qed.

(** C1. The filter of line 220 selects exactly the records whose State
    field, lower-cased, is the word stopped; a record without a State field
    is left out, and nothing in the filter can raise. *)
Theorem stopped_filter_selects_stopped
    (all_drivers : list DriverRecord) (d : DriverRecord) :
  (d ∈ stopped_drivers all_drivers
   <-> (d ∈ all_drivers
        /\ exists state, d !! lit "State" = Some state /\ lower state = lit "stopped"))
  /\ (d !! lit "State" = None -> d ∉ stopped_drivers all_drivers).
Proof.
  unfold stopped_drivers. rewrite list_elem_of_filter. unfold is_stopped, dict_get.
  split; [split|].
  - intros [H Hin]. split; [done|].
    destruct (d !! lit "State") as [state|]; [by exists state|done].
  - by intros [Hin (state & -> & H)].
  - by intros -> [H _].
Qed.

(** C2. The verbose parser returns as many records as there are blocks with
    a colon-bearing line; none of the records is empty, so a block without
    such a line is dropped; and empty input gives no record. *)
Theorem record_count_matches_colon_blocks (text : str) :
  (exists drivers,
      parse_driver_v_output (Some text) = Ok drivers
      /\ length drivers = length (List.filter has_colon_line (blocks text))
      /\ forall d, d ∈ drivers -> d <> ∅)
  /\ parse_driver_v_output (Some []) = Ok []
  /\ parse_driver_v_output None = Ok [].
Proof.
  split; [|done]. exists (flat_map block_records (blocks text)).
  split; [apply parse_driver_v_output_blocks|].
  split; [apply length_block_records|]. apply block_records_nonempty.
Qed.

(** C3, as the code has it.  On a listing with a header line and at least
    one more line, the parser returns the device names of exactly the rows
    that are not blank and whose field in the signed-status column, once
    stripped of surrounding whitespace and then of every double quote (in
    that order), lower-cases to the token false.  The quoted fields False
    and FALSE and the bare field false with blanks around it are selected;
    the empty field, true, unknown, and the quoted field with blanks inside
    the quotes are not. *)
Theorem unsigned_rows_by_false_token :
  (forall text w hline rows col,
      text <> [] -> split nl (strip text) = hline :: rows -> rows <> [] ->
      signed_column (clean_fields hline) = Some col ->
      fst (parse_signed_driver_output (Some text) w) = Ok (unsigned_names col rows))
  /\ fst (parse_signed_driver_output (Some table_spellings) world0)
     = Ok [lit "a"; lit "b"; lit "c"].
Proof.
  split; [|by vm_compute].
  intros text w hline rows col Ht Hl Hr Hc.
  rewrite (parse_signed_table text w hline rows) by done.
  unfold signed_column in Hc.
  destruct (label_column (clean_fields hline)) as [i|]; [by injection Hc as ->|].
  destruct (1 <? length (clean_fields hline)); [by injection Hc as <-|done].
Qed.

Lemma unsigned_rows_by_false_token_witness :
  fst (parse_signed_driver_output (Some table_unlabelled) world0) = Ok [lit "dev1"].
Proof.
  rewrite (proj1 unsigned_rows_by_false_token table_unlabelled world0
             (lit "Name,Signed")
             [quoted (lit "dev1") ++ [COMMA] ++ quoted (lit "False");
              quoted (lit "dev2") ++ [COMMA] ++ quoted (lit "True")] 1).
  - by vm_compute.
  - done.
  - by vm_compute.
  - done.
  - by vm_compute.
Defined.

(** The quoted field with blanks inside the quotes normalises to false in
    the specification's reading, yet the parser does not select its row. *)
Lemma quoted_padded_false_not_matched :
  spec_normalize (quoted (lit " false ")) = lit "false"
  /\ fst (parse_signed_driver_output (Some table_padded_false) world0) = Ok [].
Proof. split; by vm_compute. Qed.

(** C4, as the code has it.  On a listing with a header line and at least
    one more line, when the header carries neither signed-status label the
    parser prints the warning and goes on without raising: with two header
    columns or more it reads column 1, with fewer it returns the empty
    list. *)
Theorem unresolved_header_falls_back
    (text : str) (w : World) (hline : str) (rows : list str) :
  text <> [] -> split nl (strip text) = hline :: rows -> rows <> [] ->
  IsSigned ∉ clean_fields hline -> Esta_firmado ∉ clean_fields hline ->
  parse_signed_driver_output (Some text) w
  = (if 1 <? length (clean_fields hline)
     then Ok (unsigned_names 1 rows) else Ok [],
     print signature_warning w).
Proof.
  intros Ht Hl Hr H1 H2. rewrite (parse_signed_table text w hline rows) by done.
  assert (label_column (clean_fields hline) = None) as ->.
  { unfold label_column.
    rewrite elem_of_list_find in H1. rewrite elem_of_list_find in H2.
    destruct (list_find (fun h => h = IsSigned) _); [by destruct H1|].
    destruct (list_find (fun h => h = Esta_firmado) _); [by destruct H2|done]. }
  by destruct (1 <? length (clean_fields hline)).
Qed.

Lemma unresolved_header_falls_back_witness :
  parse_signed_driver_output (Some table_unlabelled) world0
  = (Ok [lit "dev1"], print signature_warning world0).
Proof.
  rewrite (unresolved_header_falls_back table_unlabelled world0
             (lit "Name,Signed")
             [quoted (lit "dev1") ++ [COMMA] ++ quoted (lit "False");
              quoted (lit "dev2") ++ [COMMA] ++ quoted (lit "True")]).
  - by vm_compute.
  - done.
  - by vm_compute.
  - done.
  - apply (bool_decide_unpack _). by vm_compute.
  - apply (bool_decide_unpack _). by vm_compute.
Defined.

(** A header line alone, with neither label: the parser returns at the
    line count, before it looks at the header, and prints no warning. *)
Lemma header_only_listing_prints_no_warning :
  (IsSigned ∉ clean_fields (lit "Name,Signed"))
  /\ (Esta_firmado ∉ clean_fields (lit "Name,Signed"))
  /\ parse_signed_driver_output (Some (lit "Name,Signed")) world0 = (Ok [], world0)
  /\ stdout (snd (parse_signed_driver_output (Some (lit "Name,Signed")) world0))
     <> stdout world0 ++ [signature_warning].
Proof.
  split; [apply (bool_decide_unpack _); by vm_compute|].
  split; [apply (bool_decide_unpack _); by vm_compute|].
  split; by vm_compute.
Qed.

(** C5. The stopped records are a subsequence of the parsed records, each
    stopped record as often as it was parsed; the unsigned names are the
    device names of a row-by-row selection of the data rows, in row order. *)
Theorem results_keep_source_order :
  (forall all_drivers : list DriverRecord,
      stopped_drivers all_drivers `sublist_of` all_drivers
      /\ forall d, is_stopped d ->
           length (filter (fun x => x = d) (stopped_drivers all_drivers))
           = length (filter (fun x => x = d) all_drivers))
  /\ (forall (text : str) (w : World),
         exists selected : str -> bool,
           fst (parse_signed_driver_output (Some text) w)
           = Ok (device_name <$> List.filter selected (data_rows text))).
Proof.
  split.
  - intros all_drivers. split; [apply sublist_filter|].
    intros d Hd. by rewrite filter_filter_eq.
  - intros text w. destruct (parse_signed_shape text w) as [[col|] ->].
    + exists (fun r => bool_decide (row_unsigned col r)). simpl.
      unfold unsigned_names. by rewrite filter_bool_decide.
    + exists (fun _ => false). simpl. f_equal.
      induction (data_rows text) as [|r rows IH]; [done|]. by simpl.
Qed.

(** C6. A line without a colon adds no field; a line with a colon is cut at
    its first colon into a key and a value, both stripped, the key passed
    through the header table; and of two lines of a block that yield the
    same key, the later one sets the value. *)
Theorem line_rule_last_write_wins :
  (forall (driver : DriverRecord) (line : str),
      COLON ∉ line -> parse_line driver line = Ok driver)
  /\ (forall (driver : DriverRecord) (k v : str),
         COLON ∉ k ->
         parse_line driver (k ++ COLON :: v)
         = Ok (<[normalize_key (strip k) := strip v]> driver))
  /\ (forall (driver : DriverRecord) (before between after : list str)
             (k1 v1 k2 v2 : str),
         COLON ∉ k1 -> COLON ∉ k2 ->
         normalize_key (strip k1) = normalize_key (strip k2) ->
         (forall l, l ∈ after -> forall k v, l = k ++ COLON :: v -> COLON ∉ k ->
                    normalize_key (strip k) <> normalize_key (strip k2)) ->
         exists d,
           for_each parse_line driver
             (before ++ [k1 ++ COLON :: v1] ++ between ++ [k2 ++ COLON :: v2] ++ after)
           = Ok d
           /\ d !! normalize_key (strip k2) = Some (strip v2))
  /\ (exists d, parse_driver_v_output (Some listing_duplicate_key) = Ok [d]
                /\ d !! lit "State" = Some (lit "Stopped")).
Proof.
  split; [apply parse_line_no_colon|]. split; [apply parse_line_colon|]. split.
  - intros driver before between after k1 v1 k2 v2 Hk1 Hk2 _ Hafter.
    rewrite !app_assoc, <- (app_assoc _ _ after). rewrite for_each_app.
    destruct (parse_lines_ok ((before ++ [k1 ++ COLON :: v1]) ++ between) driver)
      as (d1 & -> & _).
    rewrite bind_Ok. simpl. rewrite parse_line_colon, bind_Ok by done.
    destruct (parse_lines_keep after
                (<[normalize_key (strip k2) := strip v2]> d1)
                (normalize_key (strip k2)) Hafter) as (d & -> & Hd).
    exists d. split; [done|]. by rewrite Hd, lookup_insert_eq.
  - eexists. split; [by vm_compute|by vm_compute].
Qed.

Lemma line_rule_last_write_wins_witness :
  exists d,
    for_each parse_line ∅
      [lit "State: Running"; lit "Name: x"; lit "Estado: Stopped"; lit "trailer"]
    = Ok d
    /\ d !! lit "State" = Some (lit "Stopped").
Proof.
  destruct (proj1 (proj2 (proj2 line_rule_last_write_wins)) ∅ []
              [lit "Name: x"] [lit "trailer"]
              (lit "State") (lit " Running") (lit "Estado") (lit " Stopped"))
    as (d & Hd & Hs).
  - apply (bool_decide_unpack _). by vm_compute.
  - apply (bool_decide_unpack _). by vm_compute.
  - by vm_compute.
  - intros l ->%list_elem_of_singleton k v E Hk.
    assert (COLON ∈ lit "trailer") as Hin
      by (rewrite E, elem_of_app, elem_of_cons; auto).
    revert Hin. apply (bool_decide_unpack _). by vm_compute.
  - exists d. split; [exact Hd|exact Hs].
Defined.

(** C7. Both parsers return the empty list on empty or missing command
    output, and the renderer given two empty lists writes a complete report
    whose summary counts zero stopped and zero unsigned drivers and whose
    detail sections hold the two placeholder lines. *)
Theorem empty_outputs_give_zero_report (w : World) :
  parse_driver_v_output (Some []) = Ok []
  /\ parse_driver_v_output None = Ok []
  /\ parse_signed_driver_output (Some []) w = (Ok [], w)
  /\ parse_signed_driver_output None w = (Ok [], w)
  /\ files (generate_report [] [] w) !! report_path
     = Some (lit "Driver Analysis Report" ++ nl
             ++ lit "======================" ++ nl
             ++ lit "Generated on: " ++ now w ++ nl
             ++ nl
             ++ lit "--- Summary ---" ++ nl
             ++ lit "Found 0 stopped drivers." ++ nl
             ++ lit "Found 0 unsigned drivers." ++ nl
             ++ lit "Note: Not all stopped or unsigned drivers indicate a problem. This report is for informational purposes." ++ nl
             ++ nl
             ++ lit "--- Stopped Drivers ---" ++ nl
             ++ lit "No stopped drivers found." ++ nl
             ++ nl
             ++ lit "--- Unsigned Drivers ---" ++ nl
             ++ lit "No unsigned drivers found." ++ nl
             ++ nl
             ++ lit "--- Recommendations ---" ++ nl
             ++ lit "1. Check Windows Update for the latest official drivers." ++ nl
             ++ lit "2. For specific hardware (e.g., graphics cards), visit the manufacturer's official website (NVIDIA, AMD, Intel)." ++ nl
             ++ lit "3. Do NOT download drivers from third-party websites." ++ nl).
Proof.
  repeat split.
  rewrite generate_report_files, lookup_insert_eq. f_equal.
  unfold report_text. rewrite <- !app_assoc. by vm_compute.
Qed.

(** C8, as the code has it.  The renderer takes no path: it creates or
    overwrites the file named report.txt, relative to the working directory,
    with the whole report, and leaves every other file as it was. *)
Theorem report_written_to_fixed_path
    (stopped : list DriverRecord) (unsigned : list str) (w : World) :
  files (generate_report stopped unsigned w) !! lit "report.txt"
  = Some (report_text stopped unsigned (now w))
  /\ forall path, path <> lit "report.txt" ->
       files (generate_report stopped unsigned w) !! path = files w !! path.
Proof.
  rewrite generate_report_files. change (lit "report.txt") with report_path.
  split.
  - apply lookup_insert_eq.
  - intros path Hp. by apply lookup_insert_ne.
Qed.

Lemma report_written_to_fixed_path_witness :
  files (generate_report [] [lit "dev1"] world0) !! lit "notes.txt" = None.
Proof.
  rewrite (proj2 (report_written_to_fixed_path [] [lit "dev1"] world0)
             (lit "notes.txt")).
  - done.
  - by vm_compute.
Defined.

(** A caller who wants the report in out.txt finds no such file after the
    call; the report is in report.txt. *)
Lemma report_path_not_caller_chosen :
  files (generate_report [] [] world0) !! lit "out.txt" = None
  /\ files (generate_report [] [] world0) !! lit "report.txt"
     = Some (report_text [] [] (now world0)).
Proof.
  rewrite generate_report_files. split.
  - rewrite lookup_insert_ne; [done|]. by vm_compute.
  - change (lit "report.txt") with report_path. by rewrite lookup_insert_eq.
Qed.

(** C9, as the code has it.  Every device name the parser returns is the
    first comma-separated field of a data row, stripped of surrounding
    whitespace and then of every double quote, interior ones included; it
    holds no double quote. *)
Theorem device_names_have_no_quotes (output : option str) (w : World) :
  exists names,
    fst (parse_signed_driver_output output w) = Ok names
    /\ forall name, name ∈ names ->
         (DQUOTE ∉ name)
         /\ exists row p rest,
              row ∈ from_option data_rows [] output
              /\ split [COMMA] row = p :: rest
              /\ name = replace [DQUOTE] [] (strip p).
Proof.
  destruct output as [text|].
  2:{ exists []. split; [done|]. by intros name ?%elem_of_nil. }
  destruct (parse_signed_shape text w) as [sel ->]. eexists. split; [done|].
  intros name Hn. destruct sel as [col|]; simpl in Hn; [|by apply elem_of_nil in Hn].
  unfold unsigned_names in Hn. apply list_elem_of_fmap in Hn as (row & -> & Hrow).
  apply list_elem_of_filter in Hrow as [_ Hrow].
  destruct (device_name_field row) as (p & rest & Es & ->).
  split; [apply not_elem_of_replace_char|]. by exists row, p, rest.
Qed.

(** A device name quoted with blanks inside the quotes keeps them. *)
Lemma device_name_keeps_inner_blanks :
  fst (parse_signed_driver_output (Some table_padded_name) world0)
  = Ok [lit " dev1 "]
  /\ strip (lit " dev1 ") <> lit " dev1 ".
Proof. split; by vm_compute. Qed.

(** C10. Line feeds added to a blank-line separator do not change the
    records the verbose parser returns, and no parse returns an empty
    record. *)
Theorem wide_separators_same_records :
  (forall (a b : str) (extra : nat),
      parse_driver_v_output (Some (a ++ nl ++ nl ++ replicate extra NL ++ b))
      = parse_driver_v_output (Some (a ++ nl ++ nl ++ b)))
  /\ (forall output : option str,
         exists drivers,
           parse_driver_v_output output = Ok drivers
           /\ forall d, d ∈ drivers -> d <> ∅).
Proof.
  split.
  - intros a b extra. rewrite !parse_driver_v_output_blocks. f_equal.
    apply (blocks_wide a b extra).
  - intros [text|].
    + exists (flat_map block_records (blocks text)).
      split; [apply parse_driver_v_output_blocks|apply block_records_nonempty].
    + exists []. split; [done|]. by intros d ?%elem_of_nil.
Qed.

(** ** More on whitespace and pieces *)

Section more_string_facts.

Implicit Types s p q w u : str.

Lemma elem_of_strip_inv c s : c ∈ strip s -> c ∈ s.
Proof.
  destruct (strip_decomp s) as (w1 & w2 & Hs & _). intros H.
  rewrite Hs, !elem_of_app. auto.
Qed.

Lemma trimmed_strip s : trimmed (strip s).
Proof. by destruct (strip_decomp s) as (w1 & w2 & _ & _ & _ & Ht). Qed.

Lemma strip_blank_r s w : blank w -> strip (s ++ w) = strip s.
Proof.
  intros Hw. destruct (strip_decomp s) as (w1 & w2 & Hs & H1 & H2 & Ht).
  rewrite Hs at 1. rewrite <- !app_assoc.
  apply strip_unique; auto using blank_app.
Qed.

Lemma strip_blank_around w1 s w2 :
  blank w1 -> blank w2 -> strip (w1 ++ s ++ w2) = strip s.
Proof. intros H1 H2. by rewrite strip_blank_l, strip_blank_r. Qed.

Lemma rstrip_decomp s : exists u, s = rstrip s ++ u /\ blank u.
Proof.
  destruct (lstrip_decomp (reverse s)) as (u & Hs & Hu & _).
  exists (reverse u). split; [|by apply blank_reverse].
  unfold rstrip. by rewrite <- reverse_app, <- Hs, reverse_involutive.
Qed.

Lemma rstrip_blank w : blank w -> rstrip w = [].
Proof.
  intros Hw. unfold rstrip. by rewrite lstrip_blank by by apply blank_reverse.
Qed.

Lemma rstrip_cons_congr c p q : rstrip p = rstrip q -> rstrip (c :: p) = rstrip (c :: q).
Proof.
  assert (E : forall s, rstrip (c :: s) = rstrip (c :: rstrip s)).
  { intros s. destruct (rstrip_decomp s) as (u & Hs & Hu). rewrite Hs at 1.
    by rewrite app_comm_cons, rstrip_blank_app. }
  intros H. by rewrite (E p), (E q), H.
Qed.

Lemma rstrip_eq_strip p q : rstrip p = rstrip q -> strip p = strip q.
Proof.
  assert (E : forall s, strip s = strip (rstrip s)).
  { intros s. destruct (rstrip_decomp s) as (u & Hs & Hu). rewrite Hs at 1.
    by apply strip_blank_r. }
  intros H. by rewrite (E p), (E q), H.
Qed.

(** The characters of a piece are characters of the text that was cut. *)
Lemma elem_of_split_from sep ms k s p c :
  p ∈ split_from sep ms k s -> c ∈ p -> c ∈ s.
Proof.
  revert ms k p. induction s as [|b s IH]; intros ms k p; simpl.
  - by intros ->%list_elem_of_singleton.
  - destruct k as [|k].
    + destruct (may_split ms && starts_with sep (b :: s)).
      * intros [->|H]%elem_of_cons Hc; [by apply elem_of_nil in Hc|].
        apply list_elem_of_further. by eapply IH.
      * pose proof (split_from_nonempty sep ms 0 s) as Hne.
        destruct (split_from sep ms 0 s) as [|p0 ps] eqn:E; [done|]. simpl.
        intros [->|H]%elem_of_cons Hc.
        -- apply elem_of_cons in Hc as [->|Hc]; [apply list_elem_of_here|].
           apply list_elem_of_further. eapply IH; [|done]. rewrite E.
           apply list_elem_of_here.
        -- apply list_elem_of_further. eapply IH; [|done]. rewrite E.
           by apply list_elem_of_further.
    + intros H Hc. apply list_elem_of_further. by eapply IH.
Qed.

(** A piece cut at a character does not hold that character. *)
Lemma not_elem_of_split_char c s p : p ∈ split [c] s -> c ∉ p.
Proof.
  unfold split. revert p. induction s as [|b s IH]; intros p; simpl.
  - intros ->%list_elem_of_singleton. apply not_elem_of_nil.
  - rewrite andb_true_r. destruct (N.eqb_spec c b) as [->|Hb].
    + intros [->|H]%elem_of_cons; [apply not_elem_of_nil|by apply IH].
    + pose proof (split_from_nonempty [c] None 0 s) as Hne.
      destruct (split_from [c] None 0 s) as [|p0 ps]; [done|]. simpl.
      intros [->|H]%elem_of_cons.
      * apply not_elem_of_cons. split; [done|]. apply IH, list_elem_of_here.
      * by apply IH, list_elem_of_further.
Qed.

Lemma split_no_sep c s : c ∉ s -> split [c] s = [s].
Proof.
  unfold split. induction s as [|b s IH]; simpl; [done|].
  intros [Hb Hs]%not_elem_of_cons. rewrite andb_true_r.
  destruct (N.eqb_spec c b) as [->|_]; [done|]. by rewrite IH.
Qed.

End more_string_facts.

(** ** More on the verbose record parser *)

Section more_verbose_facts.

Implicit Types (driver d : DriverRecord) (record text k v K V : str).

Lemma header_map_values k v : header_map !! k = Some v -> v ∈ canonical_keys.
Proof.
  assert (H : map_Forall (fun _ x => x ∈ canonical_keys) header_map).
  { apply (bool_decide_unpack _). by vm_compute. }
  apply H.
Qed.

Lemma canonical_keys_fixed v : v ∈ canonical_keys -> header_map !! v = None.
Proof.
  assert (H : Forall (fun x => header_map !! x = None) canonical_keys).
  { apply (bool_decide_unpack _). by vm_compute. }
  rewrite Forall_forall in H. apply H.
Qed.

Lemma canonical_keys_clean v :
  v ∈ canonical_keys -> trimmed v /\ (NL ∉ v) /\ (COLON ∉ v).
Proof.
  assert (H : Forall (fun x => trimmed x /\ (NL ∉ x) /\ (COLON ∉ x)) canonical_keys).
  { repeat apply Forall_cons_2; [..|apply Forall_nil_2];
      (split; [split; intros c E; vm_compute in E; by injection E as <-|]);
      split; apply (bool_decide_unpack _); by vm_compute. }
  rewrite Forall_forall in H. apply H.
Qed.

Lemma normalize_key_cases k :
  normalize_key k = k \/ normalize_key k ∈ canonical_keys.
Proof.
  unfold normalize_key. destruct (header_map !! k) as [v|] eqn:E; [|by left].
  right. by apply (header_map_values k).
Qed.

(** Every field of the record built from some lines was there before or
    comes from one of the lines. *)
Lemma parse_lines_provenance (lines : list str) d0 d K V :
  for_each parse_line d0 lines = Ok d -> d !! K = Some V ->
  d0 !! K = Some V
  \/ exists k v, k ++ COLON :: v ∈ lines /\ (COLON ∉ k)
                 /\ K = normalize_key (strip k) /\ V = strip v.
Proof.
  revert d0. induction lines as [|l lines IH]; intros d0; simpl.
  - intros [= ->]. by left.
  - destruct (parse_line_cases d0 l) as [[_ ->]|(k & v & -> & Hk & ->)];
      rewrite bind_Ok; intros Hd HK; destruct (IH _ Hd HK) as [H|(k' & v' & Hin & H)].
    + by left.
    + right. exists k', v'. split; [by apply list_elem_of_further|done].
    + apply lookup_insert_Some in H as [[<- <-]|[_ H]]; [|by left].
      right. exists k, v. split; [apply list_elem_of_here|done].
    + right. exists k', v'. split; [by apply list_elem_of_further|done].
Qed.

Lemma block_records_provenance record d K V :
  d ∈ block_records record -> d !! K = Some V ->
  exists k v, k ++ COLON :: v ∈ split nl (strip record) /\ (COLON ∉ k)
              /\ K = normalize_key (strip k) /\ V = strip v.
Proof.
  unfold block_records, parse_record.
  destruct (parse_lines_ok (split nl (strip record)) ∅) as (d' & E & _).
  rewrite E, bind_Ok. destruct (bool_decide (d' <> ∅)); [|by intros ?%elem_of_nil].
  intros ->%list_elem_of_singleton HK.
  destruct (parse_lines_provenance _ _ _ _ _ E HK) as [H|H]; [|done].
  by rewrite lookup_empty in H.
Qed.

Lemma records_provenance (bl : list str) d K V :
  d ∈ flat_map block_records bl -> d !! K = Some V ->
  exists block k v,
    block ∈ bl /\ k ++ COLON :: v ∈ split nl (strip block) /\ (COLON ∉ k)
    /\ K = normalize_key (strip k) /\ V = strip v.
Proof.
  rewrite list_elem_of_In, in_flat_map. intros (block & Hb & Hd) HK.
  apply list_elem_of_In in Hb, Hd.
  destruct (block_records_provenance block d K V Hd HK) as (k & v & H).
  by exists block, k, v.
Qed.

End more_verbose_facts.

(** X1. Every field of every record the verbose parser returns comes from a
    line of one of the blocks: the key is the text before the line's first
    colon, stripped and passed through the header table, and the value is
    the stripped text after that colon. *)
Theorem fields_come_from_lines (text : str) :
  exists drivers,
    parse_driver_v_output (Some text) = Ok drivers
    /\ forall d K V, d ∈ drivers -> d !! K = Some V ->
         exists block k v,
           block ∈ blocks text /\ k ++ COLON :: v ∈ split nl (strip block)
           /\ (COLON ∉ k) /\ K = normalize_key (strip k) /\ V = strip v.
Proof.
  exists (flat_map block_records (blocks text)).
  split; [apply parse_driver_v_output_blocks|].
  intros d K V. apply records_provenance.
Qed.

(** X2. In every record the verbose parser returns, keys and values have no
    whitespace at either end and no line feed, and keys hold no colon. *)
Theorem fields_are_clean (text : str) :
  exists drivers,
    parse_driver_v_output (Some text) = Ok drivers
    /\ forall d K V, d ∈ drivers -> d !! K = Some V ->
         trimmed K /\ trimmed V /\ (NL ∉ K) /\ (NL ∉ V) /\ (COLON ∉ K).
Proof.
  exists (flat_map block_records (blocks text)).
  split; [apply parse_driver_v_output_blocks|].
  intros d K V Hd HK.
  destruct (records_provenance _ _ _ _ Hd HK)
    as (block & k & v & _ & Hl & Hk & -> & ->).
  apply not_elem_of_split_char in Hl.
  apply not_elem_of_app in Hl as [Hnk Hnv]. apply not_elem_of_cons in Hnv as [_ Hnv].
  assert (Hv : trimmed (strip v) /\ (NL ∉ strip v)).
  { split; [apply trimmed_strip|]. by intros ?%elem_of_strip_inv. }
  destruct (normalize_key_cases (strip k)) as [->|Hc].
  - split; [apply trimmed_strip|]. split; [apply Hv|].
    split; [by intros ?%elem_of_strip_inv|]. split; [apply Hv|].
    by intros ?%elem_of_strip_inv.
  - apply canonical_keys_clean in Hc as (? & ? & ?).
    destruct Hv. done.
Qed.

(** X3. The header table sends no canonical key elsewhere: normalising a
    key twice gives what normalising it once gives. *)
Theorem normalize_key_idempotent (key : str) :
  normalize_key (normalize_key key) = normalize_key key.
Proof.
  unfold normalize_key at 2 3. destruct (header_map !! key) as [v|] eqn:E; simpl.
  - unfold normalize_key.
    by rewrite (canonical_keys_fixed v) by by apply (header_map_values key).
  - unfold normalize_key. by rewrite E.
Qed.

(** ** Listings put together *)

Section joined_listings.

Implicit Types (a b m r w : str) (X Y : list str).

Lemma block_records_blank p : blank p -> block_records p = [].
Proof.
  intros Hp. rewrite (block_records_strip p []); [apply block_records_nil|].
  by rewrite strip_blank.
Qed.

Lemma records_blank_pieces X :
  Forall blank X -> flat_map block_records X = [].
Proof.
  induction 1 as [|p X Hp _ IH]; simpl; [done|].
  by rewrite block_records_blank, IH.
Qed.

Lemma split_from_blank sep ms k w :
  blank w -> Forall blank (split_from sep ms k w).
Proof.
  intros Hw. apply Forall_forall. intros p Hp. apply Forall_forall. intros c Hc.
  unfold blank in Hw. rewrite Forall_forall in Hw.
  apply Hw. by eapply elem_of_split_from.
Qed.

Lemma records_cons_head_blank c X :
  isspace c = true -> X <> [] ->
  flat_map block_records (cons_head c X) = flat_map block_records X.
Proof.
  intros Hc. destruct X as [|p ps]; [done|]. intros _. cbn [cons_head flat_map].
  rewrite (block_records_strip (c :: p) p); [done|].
  apply (strip_blank_l [c]). by repeat constructor.
Qed.

Lemma records_NL r :
  flat_map block_records (split (nl ++ nl) (NL :: r))
  = flat_map block_records (split (nl ++ nl) r).
Proof.
  induction r as [|c r IH].
  - by vm_compute.
  - destruct (decide (c = NL)) as [->|Hc].
    + rewrite split2_match. cbn [flat_map]. by rewrite block_records_nil, <- IH.
    + rewrite split2_single by (simpl; congruence).
      by apply records_cons_head_blank, split_from_nonempty.
Qed.

(** Whitespace in front of a text adds no record. *)
Lemma records_blank_l w m :
  blank w ->
  flat_map block_records (split (nl ++ nl) (w ++ m))
  = flat_map block_records (split (nl ++ nl) m).
Proof.
  induction 1 as [|c w Hc _ IH]; [done|]. simpl.
  destruct (decide (c = NL)) as [->|Hn].
  - by rewrite records_NL.
  - rewrite split2_other by done.
    by rewrite records_cons_head_blank by (done || apply split_from_nonempty).
Qed.

Lemma same_records_open_eq X Y :
  X <> [] -> Y <> [] -> same_records_open X Y ->
  flat_map block_records X = flat_map block_records Y.
Proof.
  destruct X as [|p ps]; [done|]. destruct Y as [|q qs]; [done|].
  intros _ _ [Hh Ht]. simpl in *.
  by rewrite (block_records_strip p q), Ht by by apply rstrip_eq_strip.
Qed.

Lemma same_records_open_cons_head c X Y :
  X <> [] -> Y <> [] -> same_records_open X Y ->
  same_records_open (cons_head c X) (cons_head c Y).
Proof.
  destruct X as [|p ps]; [done|]. destruct Y as [|q qs]; [done|].
  intros _ _ [Hh Ht]. split; simpl in *; [by apply rstrip_cons_congr|done].
Qed.

Lemma same_records_open_blank X :
  Forall blank X -> X <> [] -> same_records_open X [[]].
Proof.
  destruct X as [|p ps]; [done|]. intros [Hp Hps]%Forall_cons _. split; simpl.
  - by rewrite rstrip_blank.
  - by apply records_blank_pieces.
Qed.

(** Whitespace behind a text changes at most the open last piece. *)
Lemma split2_blank_r_from w m k :
  blank w -> k <= length m ->
  same_records_open (split_from (nl ++ nl) None k (m ++ w))
                    (split_from (nl ++ nl) None k m).
Proof.
  intros Hw. revert k. induction m as [|c m IH]; intros k Hk.
  - simpl in Hk. assert (k = 0) as -> by lia.
    apply same_records_open_blank;
      [by apply split_from_blank|apply split_from_nonempty].
  - destruct k as [|k]; [|apply IH; simpl in Hk; lia].
    fold (split (nl ++ nl) ((c :: m) ++ w)). fold (split (nl ++ nl) (c :: m)).
    rewrite <- app_comm_cons.
    destruct (decide (c = NL)) as [->|Hc].
    + destruct m as [|d m].
      * assert (Hb : blank (NL :: w)) by by constructor.
        cbn [app].
        destruct (same_records_open_blank (split (nl ++ nl) (NL :: w)))
          as [Hh Ht]; [by apply split_from_blank|apply split_from_nonempty|].
        split; [by rewrite Hh|by rewrite Ht].
      * destruct (decide (d = NL)) as [->|Hd].
        -- rewrite <- app_comm_cons, !split2_match.
           destruct (IH 1) as [Hh Ht]; [simpl; lia|].
           split; [done|]. simpl.
           apply same_records_open_eq; [apply split_from_nonempty..|].
           apply (IH 1). simpl. lia.
        -- rewrite !split2_single by (simpl; congruence).
           apply same_records_open_cons_head; [apply split_from_nonempty..|].
           apply (IH 0). lia.
    + rewrite !split2_other by done.
      apply same_records_open_cons_head; [apply split_from_nonempty..|].
      apply (IH 0). lia.
Qed.

Lemma records_blank_r m w :
  blank w ->
  flat_map block_records (split (nl ++ nl) (m ++ w))
  = flat_map block_records (split (nl ++ nl) m).
Proof.
  intros Hw. apply same_records_open_eq; [apply split_from_nonempty..|].
  apply (split2_blank_r_from w m 0); [done|lia].
Qed.

(** The outer [strip] of the parser does not change the records. *)
Lemma records_strip s :
  flat_map block_records (blocks s)
  = flat_map block_records (split (nl ++ nl) s).
Proof.
  unfold blocks. destruct (strip_decomp s) as (w1 & w2 & Hs & H1 & H2 & _).
  rewrite Hs at 2. by rewrite records_blank_l, records_blank_r.
Qed.

Lemma records_joined a b :
  flat_map block_records (split (nl ++ nl) (a ++ nl ++ nl ++ b))
  = flat_map block_records (split (nl ++ nl) a)
    ++ flat_map block_records (split (nl ++ nl) b).
Proof.
  destruct (trailing_NL_decomp a) as (a0 & i & -> & Ha).
  destruct (leading_NL_decomp b) as (j & b0 & -> & Hb).
  replace ((a0 ++ replicate i NL) ++ nl ++ nl ++ replicate j NL ++ b0)
    with (a0 ++ replicate (2 + (i + j)) NL ++ b0).
  2:{ rewrite <- app_assoc. f_equal.
      change (nl ++ nl ++ replicate j NL ++ b0)
        with (replicate 2 NL ++ replicate j NL ++ b0).
      rewrite !app_assoc, <- !replicate_add. do 2 f_equal. lia. }
  rewrite records_separator by done.
  by rewrite records_blank_r, records_blank_l by apply blank_replicate_NL.
Qed.

End joined_listings.

(** X4. Whitespace around the whole command output changes nothing: both
    parsers return, and the signed-status parser prints, the same. *)
Theorem surrounding_whitespace_ignored (w1 text w2 : str) :
  blank w1 -> blank w2 ->
  parse_driver_v_output (Some (w1 ++ text ++ w2)) = parse_driver_v_output (Some text)
  /\ forall w : World,
       parse_signed_driver_output (Some (w1 ++ text ++ w2)) w
       = parse_signed_driver_output (Some text) w.
Proof.
  intros H1 H2.
  pose proof (strip_blank_around w1 text w2 H1 H2) as Hs. split.
  - rewrite !parse_driver_v_output_blocks. unfold blocks. by rewrite Hs.
  - intros w. destruct (w1 ++ text ++ w2) as [|c s], text as [|c' s'].
    + done.
    + unfold parse_signed_driver_output. by rewrite <- Hs.
    + unfold parse_signed_driver_output. by rewrite Hs.
    + unfold parse_signed_driver_output. by rewrite Hs.
Qed.

Lemma surrounding_whitespace_ignored_witness :
  parse_driver_v_output (Some ((lit "  " ++ nl) ++ listing_acpi ++ lit " "))
  = parse_driver_v_output (Some listing_acpi).
Proof.
  apply (surrounding_whitespace_ignored (lit "  " ++ nl) listing_acpi (lit " "));
    repeat constructor.
Defined.

(** X5. The verbose parser reads two listings joined by a blank line as the
    records of the first followed by the records of the second. *)
Theorem joined_listings_concatenate (a b : str) :
  exists ra rb,
    parse_driver_v_output (Some a) = Ok ra
    /\ parse_driver_v_output (Some b) = Ok rb
    /\ parse_driver_v_output (Some (a ++ nl ++ nl ++ b)) = Ok (ra ++ rb).
Proof.
  exists (flat_map block_records (blocks a)), (flat_map block_records (blocks b)).
  rewrite !parse_driver_v_output_blocks. split; [done|]. split; [done|].
  f_equal. rewrite !records_strip. apply records_joined.
Qed.

(** ** More on the signed-status parser *)

Section more_signed_facts.

Implicit Types (text hline row : str) (rows header : list str) (w : World).

Lemma data_rows_lines text row : row ∈ data_rows text -> row ∈ split nl (strip text).
Proof. intros H. by eapply elem_of_sublist, sublist_drop. Qed.

Lemma device_name_chars row c :
  c ∈ device_name row -> c <> DQUOTE /\ c <> COMMA /\ c ∈ row.
Proof.
  destruct (device_name_field row) as (p & rest & Es & ->).
  rewrite replace_char_filter, list_elem_of_filter. intros [Hq Hc%elem_of_strip_inv].
  assert (Hp : p ∈ split [COMMA] row) by (rewrite Es; apply list_elem_of_here).
  split; [done|]. split.
  - intros ->. by apply (not_elem_of_split_char COMMA row p).
  - by apply (elem_of_split_from [COMMA] None 0 row p c).
Qed.

Lemma label_column_first header label i :
  label = IsSigned \/ (label = Esta_firmado /\ (IsSigned ∉ header)) ->
  header !! i = Some label ->
  (forall j, j < i -> header !! j <> Some label) ->
  label_column header = Some i.
Proof.
  intros Hl Hi Hfirst.
  assert (Hf : list_find (fun h => h = label) header = Some (i, label)).
  { apply list_find_Some. split; [done|]. split; [done|].
    intros j y Hj Hlt ->. by apply (Hfirst j). }
  unfold label_column. destruct Hl as [->|[-> Hn]].
  - by rewrite Hf.
  - rewrite elem_of_list_find in Hn.
    destruct (list_find (fun h => h = IsSigned) header); [by destruct Hn|].
    by rewrite Hf.
Qed.

End more_signed_facts.

(** X6. When the header carries a recognized label, the parser reads the
    first column so labelled, the English label before the Spanish one, and
    prints nothing. *)
Theorem labelled_column_is_read
    (text : str) (w : World) (hline : str) (rows : list str) (label : str) (i : nat) :
  text <> [] -> split nl (strip text) = hline :: rows -> rows <> [] ->
  label = IsSigned \/ (label = Esta_firmado /\ (IsSigned ∉ clean_fields hline)) ->
  clean_fields hline !! i = Some label ->
  (forall j, j < i -> clean_fields hline !! j <> Some label) ->
  parse_signed_driver_output (Some text) w = (Ok (unsigned_names i rows), w).
Proof.
  intros Ht Hl Hr Hlabel Hi Hfirst.
  rewrite (parse_signed_table text w hline rows) by done.
  by rewrite (label_column_first _ label i).
Qed.

Lemma labelled_column_is_read_witness :
  parse_signed_driver_output (Some table_sample) world0 = (Ok [lit "dev1"], world0).
Proof.
  rewrite (labelled_column_is_read table_sample world0 (lit "Name,IsSigned")
             [quoted (lit "dev1") ++ [COMMA] ++ quoted (lit "False");
              quoted (lit "dev2") ++ [COMMA] ++ quoted (lit "True")]
             IsSigned 1).
  - by vm_compute.
  - done.
  - by vm_compute.
  - done.
  - by left.
  - by vm_compute.
  - intros j Hj. assert (j = 0) as -> by lia. by vm_compute.
Defined.

(** X7. The signed-status parser writes no file and changes nothing of the
    world but the console, where it prints nothing or the one warning. *)
Theorem signed_parser_only_warns (output : option str) (w : World) :
  files (snd (parse_signed_driver_output output w)) = files w
  /\ now (snd (parse_signed_driver_output output w)) = now w
  /\ abspath (snd (parse_signed_driver_output output w)) = abspath w
  /\ (stdout (snd (parse_signed_driver_output output w)) = stdout w
      \/ stdout (snd (parse_signed_driver_output output w))
         = stdout w ++ [signature_warning]).
Proof.
  destruct (parse_signed_world output w) as [-> | ->]; repeat split; auto.
Qed.

(** X8. A listing of a single line gives no name and no warning, whatever
    its header: the parser returns before it looks at the header. *)
Theorem single_line_listing_is_silent (text : str) (w : World) :
  NL ∉ strip text ->
  parse_signed_driver_output (Some text) w = (Ok [], w).
Proof.
  intros H. apply parse_signed_short.
  change nl with [NL]. rewrite split_no_sep by done. simpl. lia.
Qed.

Lemma single_line_listing_is_silent_witness :
  parse_signed_driver_output (Some (lit "Name,Signed" ++ nl)) world0 = (Ok [], world0).
Proof.
  apply single_line_listing_is_silent. apply (bool_decide_unpack _). by vm_compute.
Defined.

(** X9. A device name the parser returns holds no comma and no line feed:
    it is cut out of one row at the first comma, quoted or not. *)
Theorem device_names_are_single_fields (output : option str) (w : World) :
  exists names,
    fst (parse_signed_driver_output output w) = Ok names
    /\ forall name, name ∈ names -> (COMMA ∉ name) /\ (NL ∉ name).
Proof.
  destruct output as [text|].
  2:{ exists []. split; [done|]. by intros name ?%elem_of_nil. }
  destruct (parse_signed_shape text w) as [sel ->]. eexists. split; [done|].
  intros name Hn. destruct sel as [col|]; simpl in Hn; [|by apply elem_of_nil in Hn].
  unfold unsigned_names in Hn. apply list_elem_of_fmap in Hn as (row & -> & Hrow).
  apply list_elem_of_filter in Hrow as [_ Hrow%data_rows_lines].
  apply (not_elem_of_split_char NL) in Hrow.
  split; intros (Hq & Hc & Hin)%device_name_chars; done.
Qed.

(** ** Runs of the renderer and of the whole program *)

Section run_facts.

Implicit Types (w : World) (o : run_outcome).

Lemma generate_report_now stopped unsigned w :
  now (generate_report stopped unsigned w) = now w.
Proof. by rewrite generate_report_spec. Qed.

Lemma view_web_requested_ok args : exists b, view_web_requested args = Ok b.
Proof.
  unfold view_web_requested. destruct args as [|prog [|arg rest]]; [by eexists..|].
  change (1 <? length (prog :: arg :: rest)) with true. cbv iota.
  change (getitem (prog :: arg :: rest) 1) with (getitem (prog :: arg :: rest) (Z.of_nat 1)).
  rewrite (getitem_nat _ 1 arg) by done. by eexists.
Qed.

(** A command that raises nothing uncaught hands its output, or [None], to
    the parsers and leaves the files alone. *)
Lemma run_command_spec command o w :
  command <> [] ->
  match o with
  | OtherError e => run_command command o w = (Raise e, w)
  | _ => exists w',
           run_command command o w = (Ok (command_output o), w')
           /\ files w' = files w
  end.
Proof.
  intros Hc. destruct command as [|program rest]; [done|].
  destruct o; simpl; by eexists.
Qed.

Lemma truthy_command_output o : truthy (command_output o) = has_output o.
Proof. by destruct o as [[|c out]| | |]. Qed.

Lemma main_gives_up (driver_v_output signed_driver_output : option str)
    (io : file_outcome) w :
  truthy driver_v_output = false -> truthy signed_driver_output = false ->
  main driver_v_output signed_driver_output io w
  = (Ok tt, print (lit "Could not retrieve driver information. Exiting.") w).
Proof. intros E1 E2. unfold main. by rewrite E1, E2. Qed.

(** The second command and the rest of [main], once the first command has
    raised nothing uncaught. *)
Lemma second_command_and_main (ov osi : run_outcome) (io : file_outcome) w w2 :
  files w2 = files w ->
  (forall e, osi <> OtherError e) ->
  exists r w',
    match run_command command_si osi
            (print (lit "Executing 'driverquery /si' to check for unsigned drivers...") w2)
    with
    | (Raise e, w4) => (Raise e, w4)
    | (Ok signed_driver_output, w4) =>
        match main (command_output ov) signed_driver_output io w4 with
        | (Raise e, w5) => (Raise e, w5)
        | (Ok _, w5) => (Ok Returned, w5)
        end
    end = (r, w')
    /\ if has_output ov || has_output osi
       then match io with
            | FileWritten =>
                r = Ok Returned
                /\ exists report, files w' = <[report_path := report]> (files w)
            | OpenRaises e => r = Raise e /\ files w' = files w
            | WriteRaises e kept =>
                r = Raise e
                /\ exists partial, files w' = <[report_path := partial]> (files w)
            end
       else r = Ok Returned /\ files w' = files w.
Proof.
  intros Hf2 Hosi.
  pose proof (run_command_spec command_si osi
                (print (lit "Executing 'driverquery /si' to check for unsigned drivers...") w2))
    as Hrs.
  assert (exists w4,
             run_command command_si osi
               (print (lit "Executing 'driverquery /si' to check for unsigned drivers...") w2)
             = (Ok (command_output osi), w4)
             /\ files w4 = files w) as (w4 & -> & Hf4).
  { destruct osi as [out| |err|e]; [| | |by destruct (Hosi e)];
      (destruct Hrs as (w4 & E & Hf); [done|]); exists w4;
      (split; [done|]); by rewrite Hf, files_print. }
  destruct (has_output ov || has_output osi) eqn:E.
  - rewrite <- !truthy_command_output in E.
    destruct (main_renders _ _ io w4 E) as (all & un & _ & _ & H).
    destruct io as [|e|e kept]; destruct H as (w' & -> & Hw').
    + eexists _, w'. split; [done|]. split; [done|]. eexists. by rewrite Hw', Hf4.
    + eexists _, w'. split; [done|]. split; [done|]. by rewrite Hw', Hf4.
    + eexists _, w'. split; [done|]. split; [done|]. eexists. by rewrite Hw', Hf4.
  - apply orb_false_elim in E as [E1 E2].
    rewrite <- truthy_command_output in E1, E2.
    rewrite main_gives_up by done. eexists _, _. split; [done|]. split; [done|].
    by rewrite files_print.
Qed.

End run_facts.

(** X10. The renderer overwrites: after two runs the files are what the
    second run alone would have left. *)
Theorem later_report_replaces_earlier
    (stopped1 stopped2 : list DriverRecord) (unsigned1 unsigned2 : list str)
    (w : World) :
  files (generate_report stopped2 unsigned2 (generate_report stopped1 unsigned1 w))
  = files (generate_report stopped2 unsigned2 w).
Proof.
  rewrite !generate_report_files, generate_report_now. apply insert_insert_eq.
Qed.

(** X11. From line 212 on, [main] raises only what opening or writing the
    report file raises: parsing and filtering never raise.  When a command
    returned text, report.txt ends up with the report of the stopped records
    among the parsed ones and of the unsigned names if the file operations
    succeed, untouched if [open] raises, and with a prefix of that report
    if a write raises.  When neither command returned text, [main] prints
    one message and touches no file, whatever the file system would do. *)
Theorem main_reports_or_gives_up
    (driver_v_output signed_driver_output : option str)
    (io : file_outcome) (w : World) :
  if truthy driver_v_output || truthy signed_driver_output
  then exists all_drivers unsigned,
         parse_driver_v_output driver_v_output = Ok all_drivers
         /\ fst (parse_signed_driver_output signed_driver_output
                   (print (lit "Parsing driver information...") w)) = Ok unsigned
         /\ match io with
            | FileWritten =>
                exists w',
                  main driver_v_output signed_driver_output io w = (Ok tt, w')
                  /\ files w'
                     = <[report_path :=
                           report_text (stopped_drivers all_drivers) unsigned (now w)]>
                         (files w)
            | OpenRaises e =>
                exists w',
                  main driver_v_output signed_driver_output io w = (Raise e, w')
                  /\ files w' = files w
            | WriteRaises e kept =>
                exists w',
                  main driver_v_output signed_driver_output io w = (Raise e, w')
                  /\ files w'
                     = <[report_path :=
                           take kept
                             (report_text (stopped_drivers all_drivers) unsigned
                                (now w))]>
                         (files w)
            end
  else main driver_v_output signed_driver_output io w
       = (Ok tt, print (lit "Could not retrieve driver information. Exiting.") w).
Proof.
  destruct (truthy driver_v_output || truthy signed_driver_output) eqn:E.
  - by apply main_renders.
  - apply orb_false_elim in E as [E1 E2]. by apply main_gives_up.
Qed.

(** X12. A run that does not ask for the help page.  Without administrator
    rights it prints two lines, exits with status 1 and changes no file.
    With them: if a command raises something [run_command] does not catch,
    the run ends with that exception and no file changed; otherwise, when
    neither command ended with status zero and some output, the run returns
    with no file changed; otherwise the run returns with report.txt written
    if the file operations succeed, ends with the exception and no file
    changed if [open] raises, and ends with the exception and report.txt
    partly written if a write raises.  No other file is ever changed. *)
Theorem whole_run_outcome
    (open_web_page : World -> World) (inv : Invocation) (w : World) :
  view_web_requested (argv inv) = Ok false ->
  exists r w',
    main_from_start open_web_page inv w = (r, w')
    /\ if is_admin (admin_probe inv)
       then match driverquery_v inv, driverquery_si inv with
            | OtherError e, _ => r = Raise e /\ files w' = files w
            | _, OtherError e => r = Raise e /\ files w' = files w
            | ov, osi =>
                if has_output ov || has_output osi
                then match report_io inv with
                     | FileWritten =>
                         r = Ok Returned
                         /\ exists report,
                              files w' = <[report_path := report]> (files w)
                     | OpenRaises e => r = Raise e /\ files w' = files w
                     | WriteRaises e kept =>
                         r = Raise e
                         /\ exists partial,
                              files w' = <[report_path := partial]> (files w)
                     end
                else r = Ok Returned /\ files w' = files w
            end
       else r = Ok (SystemExit 1)
            /\ files w' = files w
            /\ stdout w'
               = stdout w
                 ++ [lit "Error: This script requires administrative privileges.";
                     lit "Please run it as an administrator."].
Proof.
  intros Hv. unfold main_from_start. rewrite Hv.
  destruct (is_admin (admin_probe inv)); cbn [negb].
  2:{ eexists _, _. split; [reflexivity|]. split; [done|]. split; [done|].
      cbn [print stdout]. by rewrite <- app_assoc. }
  set (w1 := print _ (print _ w)).
  pose proof (run_command_spec command_v (driverquery_v inv) w1) as Hrv.
  destruct (driverquery_v inv) as [out| |err|e] eqn:Ev.
  4:{ rewrite Hrv by done. by eexists _, _. }
  all: destruct Hrv as (w2 & -> & Hf2); [done|];
    destruct (driverquery_si inv) as [out'| |err'|e'] eqn:Es;
    try (cbn [run_command]; rewrite ?Hf2; by eexists _, _);
    by apply second_command_and_main.
Qed.

Lemma whole_run_outcome_witness :
  exists w',
    main_from_start (fun w => w)
      (mkInvocation [lit "driver_analyzer.py"] (Some 1%Z)
         (Completed listing_acpi) FileNotFound FileWritten) world0
    = (Ok Returned, w')
    /\ exists report, files w' = <[report_path := report]> (files world0).
Proof.
  destruct (whole_run_outcome (fun w => w)
              (mkInvocation [lit "driver_analyzer.py"] (Some 1%Z)
                 (Completed listing_acpi) FileNotFound FileWritten) world0)
    as (r & w' & E & H).
  - done.
  - simpl in H. destruct H as [-> H]. by exists w'.
Defined.
